(** * The tree outliner of the CAD document: a shallow embedding

    The class [Tree] (the outliner panel; it is the third unit of
    packages/chili-occ/src/occHelps.ts) keeps a visual projection of the
    document's node graph.  Its fields and methods are embedded here as
    pure functions over an explicit state: the node map is a finite map
    from node identities to element identities, the child lists of the
    elements are a finite map too, and the calls on collaborators that
    live outside the class (selection manager, transactions, scrolling,
    styles, the event itself) are collected in a log.  Loops over the
    parent pointers of the graph take fuel; running out of fuel stands for
    a loop that has not ended yet.  The subscriptions to the message bus
    ([PubSub], [dispose]) carry no state of the panel and are left out. *)

From stdpp Require Import base option list gmap strings.

(** ** Nodes and the node graph *)

(** An [INode] is used by reference only: its identity is a number. *)
Abbreviation Node := nat (only parsing).

(** [INode.isLinkedListNode], [INode.isModelNode], or neither. *)
Inductive NodeKind := LinkedListNode | ModelNode | OtherNode.

Global Instance NodeKind_eq_dec : EqDecision NodeKind.
Proof. solve_decision. Defined.

(** The fields of the node objects that the tree reads. *)
Record NodeGraph := {
  rootNode : Node;
  kind : Node -> NodeKind;
  parent : Node -> option Node;
  firstChild : Node -> option Node;
  nextSibling : Node -> option Node
}.

Definition isLinkedListNode (g : NodeGraph) (n : Node) : bool :=
  bool_decide (kind g n = LinkedListNode).

(** [NodeRecord]: one structural edit. *)
Record NodeRecord := {
  node : Node;
  oldParent : option Node;
  oldPrevious : option Node;
  newParent : option Node;
  newPrevious : option Node
}.

(** ** Elements *)

(** An [HTMLElement] of the panel is used by reference as well. *)
Abbreviation Elem := nat (only parsing).

(** The panel itself ([this] in the constructor). *)
Definition treeElem : Elem := 0.

(** The two classes of [TreeItem]; only a group carries [isExpanded]. *)
Inductive TreeItem :=
| TreeGroup (n : Node) (isExpanded : bool)
| TreeModel (n : Node).

Definition item_node (i : TreeItem) : Node :=
  match i with TreeGroup n _ => n | TreeModel n => n end.

(** [x instanceof TreeGroup] for the result of a lookup. *)
Definition instanceofTreeGroup (i : option TreeItem) : bool :=
  match i with Some (TreeGroup _ _) => true | _ => false end.

(** What an event can point at: a tree item, an element nested in another
    one, or an element without [parentElement]. *)
Inductive HTMLElement :=
| ItemElement (n : Node)
| InnerElement (parentElement : HTMLElement)
| LooseElement.

Record MouseEvent := {
  target : HTMLElement;
  shiftKey : bool;
  ctrlKey : bool;
  metaKey : bool
}.

Inductive Style := style_selected | style_current.

(** A call [x.parent.move(x, newParent, target)]. *)
Record MoveCall := {
  mv_receiver : Node;
  mv_child : Node;
  mv_newGroup : option Node;
  mv_previous : option Node
}.

(** Calls that leave the class. *)
Inductive Call :=
| StopPropagation
| PreventDefault
| SetDropEffect (effect : string)
| Select (nodes : list Node) (additive : bool)
| Excute (name : string) (body : list MoveCall)
| ScrollIntoView (e : Elem)
| AddSelectedStyle (e : Elem) (s : Style)
| RemoveSelectedStyle (e : Elem) (s : Style)
| SetCurrentNode (n : option Node).

(** ** Child lists *)

Section ChildLists.
Context {A : Type} `{EqDecision A}.

(** [l] without [x]. *)
Definition without (x : A) (l : list A) : list A :=
  filter (fun y => y <> x) l.

(** [x] placed right after [pre]; at the end when [pre] is not there. *)
Fixpoint insert_after (x pre : A) (l : list A) : list A :=
  match l with
  | [] => [x]
  | y :: l' =>
      if decide (y = pre) then y :: x :: l' else y :: insert_after x pre l'
  end.
End ChildLists.

(** Child lists of the elements ([Elem]) or of the nodes ([Node]). *)
Definition children (m : gmap nat (list nat)) (p : nat) : list nat :=
  default [] (m !! p).

(** Modelled from the spec: [removeChild], [appendChild] and
    [TreeGroup.insertAfter] belong to the element classes, which are not
    among the sources.  Detaching takes the element out of the parent's children;
    appending puts it at the end; inserting puts it immediately after the
    given sibling's element, else at the end of the parent's children.  An
    element has one place in the panel: attaching it takes it out of
    wherever it was.  The spec names no failure for these operations:
    detaching an element from a parent that does not hold it leaves the
    child list as it is, and so does a sibling that the parent does not
    hold, after which the element goes to the end. *)
Definition removeChild (p e : Elem) (m : gmap Elem (list Elem)) :
    gmap Elem (list Elem) :=
  <[p := without e (children m p)]> m.

Definition detach (e : Elem) (m : gmap Elem (list Elem)) :
    gmap Elem (list Elem) :=
  without e <$> m.

Definition appendChild (p e : Elem) (m : gmap Elem (list Elem)) :
    gmap Elem (list Elem) :=
  let m' := detach e m in <[p := children m' p ++ [e]]> m'.

Definition insertAfter (p e : Elem) (pre : option Elem)
    (m : gmap Elem (list Elem)) : gmap Elem (list Elem) :=
  let m' := detach e m in
  match pre with
  | Some q => <[p := insert_after e q (children m' p)]> m'
  | None => <[p := children m' p ++ [e]]> m'
  end.

(** ** The state of a [Tree] *)

Record Tree := {
  nodeMap : gmap Node Elem;
  items : gmap Elem TreeItem;
  childLists : gmap Elem (list Elem);
  nextElem : Elem;
  lastClicked : option Node;
  selectedNodes : list Node;
  dragging : option (list Node)
}.

Definition set_nodeMap (f : gmap Node Elem -> gmap Node Elem) (t : Tree) :=
  {| nodeMap := f (nodeMap t); items := items t;
     childLists := childLists t; nextElem := nextElem t;
     lastClicked := lastClicked t; selectedNodes := selectedNodes t;
     dragging := dragging t |}.

Definition set_items (f : gmap Elem TreeItem -> gmap Elem TreeItem)
    (t : Tree) :=
  {| nodeMap := nodeMap t; items := f (items t);
     childLists := childLists t; nextElem := nextElem t;
     lastClicked := lastClicked t; selectedNodes := selectedNodes t;
     dragging := dragging t |}.

Definition set_childLists
    (f : gmap Elem (list Elem) -> gmap Elem (list Elem)) (t : Tree) :=
  {| nodeMap := nodeMap t; items := items t;
     childLists := f (childLists t); nextElem := nextElem t;
     lastClicked := lastClicked t; selectedNodes := selectedNodes t;
     dragging := dragging t |}.

Definition set_lastClicked (o : option Node) (t : Tree) :=
  {| nodeMap := nodeMap t; items := items t;
     childLists := childLists t; nextElem := nextElem t;
     lastClicked := o; selectedNodes := selectedNodes t;
     dragging := dragging t |}.

Definition set_selectedNodes (f : list Node -> list Node) (t : Tree) :=
  {| nodeMap := nodeMap t; items := items t;
     childLists := childLists t; nextElem := nextElem t;
     lastClicked := lastClicked t; selectedNodes := f (selectedNodes t);
     dragging := dragging t |}.

Definition set_dragging (d : option (list Node)) (t : Tree) :=
  {| nodeMap := nodeMap t; items := items t;
     childLists := childLists t; nextElem := nextElem t;
     lastClicked := lastClicked t; selectedNodes := selectedNodes t;
     dragging := d |}.

(** The fields as the class initialises them, before the constructor body:
    no entry, nothing selected, and the panel as only element. *)
Definition Tree_fields : Tree :=
  {| nodeMap := ∅; items := ∅; childLists := ∅; nextElem := 1;
     lastClicked := None; selectedNodes := []; dragging := None |}.

(** How a handler ends. *)
Inductive outcome :=
| Returns (t : Tree)
| Throws (msg : string) (t : Tree)
| OutOfFuel.

Definition and_then (o : outcome) (k : Tree -> outcome) : outcome :=
  match o with Returns t => k t | _ => o end.

(** [getTreeItem(event.target)?.node] *)
Fixpoint getTreeItem (item : HTMLElement) : option Node :=
  match item with
  | ItemElement n => Some n
  | InnerElement p => getTreeItem p
  | LooseElement => None
  end.

(** [Set.add] and [Set.delete] on a set kept in insertion order. *)
Definition set_add (x : Node) (s : list Node) : list Node :=
  if bool_decide (x ∈ s) then s else s ++ [x].

Definition set_delete (x : Node) (s : list Node) : list Node := without x s.

(** [this.dragging?.includes(n)]: [undefined] counts as false. *)
Definition includes (d : option (list Node)) (n : Node) : bool :=
  match d with
  | Some l => bool_decide (n ∈ l)
  | None => false
  end.

(** ** The methods of [Tree] *)

Section TreeView.

(** What lies outside the class, in code that is not among the sources:
    the value of [isExpanded] in a new [TreeGroup], [INode.getNodesBetween],
    the state of the tree when [selection.select] returns (the selection
    manager may publish a change while it runs), and the node graph after
    [INodeLinkedList.move]. *)
Variable groupExpanded : bool.
Variable getNodesBetween : Node -> Node -> list Node.
Variable select : Tree -> list Node -> bool -> Tree.
Variable move : NodeGraph -> MoveCall -> NodeGraph.

(** [new TreeGroup(..)] or [new TreeModel(..)]: a fresh element.  [None]
    stands for [throw new Error("unknown node")].  (The callbacks that
    register the listeners have no state of their own.) *)
Definition createHTMLElement (g : NodeGraph) (t : Tree) (n : Node) :
    option (Elem * Tree) :=
  let fresh i :=
    (nextElem t,
     {| nodeMap := nodeMap t; items := <[nextElem t := i]> (items t);
        childLists := childLists t; nextElem := S (nextElem t);
        lastClicked := lastClicked t; selectedNodes := selectedNodes t;
        dragging := dragging t |}) in
  match kind g n with
  | LinkedListNode => Some (fresh (TreeGroup n groupExpanded))
  | ModelNode => Some (fresh (TreeModel n))
  | OtherNode => None
  end.

Fixpoint ensureHasHTML (g : NodeGraph) (t : Tree)
    (records : list NodeRecord) : outcome :=
  match records with
  | [] => Returns t
  | record :: rest =>
      match nodeMap t !! node record with
      | Some _ => ensureHasHTML g t rest
      | None =>
          match createHTMLElement g t (node record) with
          | None => Throws "unknown node" t
          | Some (e, t') =>
              ensureHasHTML g (set_nodeMap <[node record := e]> t') rest
          end
      end
  end.

(** The body of the loop over the records. *)
Definition applyRecord (t : Tree) (record : NodeRecord) : Tree :=
  match nodeMap t !! node record with
  | None => t
  | Some ele =>
      let t1 :=
        match oldParent record with
        | Some op =>
            match nodeMap t !! op with
            | Some pe => set_childLists (removeChild pe ele) t
            | None => t
            end
        | None => t
        end in
      match newParent record with
      | Some np =>
          match nodeMap t1 !! np with
          | Some pe =>
              if instanceofTreeGroup (items t1 !! pe) then
                let pre :=
                  match newPrevious record with
                  | None => None
                  | Some q => nodeMap t1 !! q
                  end in
                set_childLists (insertAfter pe ele pre) t1
              else t1
          | None => t1
          end
      | None => t1
      end
  end.

Definition handleNodeLinkedChanged (g : NodeGraph) (t : Tree)
    (records : list NodeRecord) : outcome :=
  and_then (ensureHasHTML g t records)
           (fun t1 => Returns (foldl applyRecord t1 records)).

(** [group.isExpanded = true] when it is [false]. *)
Definition expand (t : Tree) (group : Elem) : Tree :=
  match items t !! group with
  | Some (TreeGroup n false) => set_items <[group := TreeGroup n true]> t
  | _ => t
  end.

(** One turn of the loop of [scrollToNode], on the state and the variable
    [parent]. *)
Definition scroll_turn (g : NodeGraph) (t : Tree) (p : Node) :
    Tree * option Node :=
  match nodeMap t !! p with
  | Some group => (expand t group, parent g p)
  | None => (t, Some p)
  end.

Fixpoint scroll_loop (fuel : nat) (g : NodeGraph) (t : Tree)
    (cur : option Node) : option Tree :=
  match cur with
  | None => Some t
  | Some p =>
      match fuel with
      | 0 => None
      | S fuel' =>
          let '(t', cur') := scroll_turn g t p in
          scroll_loop fuel' g t' cur'
      end
  end.

Definition scrollToNode (fuel : nat) (g : NodeGraph) (t : Tree)
    (selected : list Node) : option (Tree * list Call) :=
  match head selected with
  | None => Some (t, [])
  | Some n =>
      match scroll_loop fuel g t (parent g n) with
      | None => None
      | Some t' =>
          Some (t', match nodeMap t' !! n with
                    | Some e => [ScrollIntoView e]
                    | None => []
                    end)
      end
  end.

Definition setLastClickItem (g : NodeGraph) (t : Tree)
    (item : option Node) : Tree * list Call :=
  let c1 :=
    match lastClicked t with
    | Some l =>
        match nodeMap t !! l with
        | Some e => [RemoveSelectedStyle e style_current]
        | None => []
        end
    | None => []
    end in
  let c2 :=
    match item with
    | Some i =>
        match nodeMap t !! i with
        | Some e => [AddSelectedStyle e style_current]
        | None => []
        end ++
        [SetCurrentNode (if isLinkedListNode g i then Some i
                         else parent g i)]
    | None => []
    end in
  (set_lastClicked item t, c1 ++ c2).

Definition style_calls (t : Tree) (c : Elem -> Style -> Call)
    (l : list Node) : list Call :=
  omap (fun x => (fun e => c e style_selected) <$> nodeMap t !! x) l.

Definition handleSelectionChanged (fuel : nat) (g : NodeGraph) (t : Tree)
    (selected unselected : list Node) : option (Tree * list Call) :=
  let c1 := style_calls t RemoveSelectedStyle unselected in
  let t1 := set_selectedNodes (fun s => foldl (flip set_delete) s unselected) t in
  let '(t2, c2) := setLastClickItem g t1 None in
  let t3 := set_selectedNodes (fun s => foldl (flip set_add) s selected) t2 in
  let c3 := style_calls t3 AddSelectedStyle selected in
  match scrollToNode fuel g t3 selected with
  | None => None
  | Some (t4, c4) => Some (t4, c1 ++ c2 ++ c3 ++ c4)
  end.

Fixpoint addAllNodes (fuel : nat) (g : NodeGraph) (t : Tree)
    (parentEl : Elem) (n : Node) : outcome :=
  match fuel with
  | 0 => OutOfFuel
  | S fuel' =>
      match createHTMLElement g t n with
      | None => Throws "unknown node" t
      | Some (element, t1) =>
          let t2 :=
            set_childLists (appendChild parentEl element)
              (set_nodeMap <[n := element]> t1) in
          if isLinkedListNode g n then
            and_then
              match firstChild g n with
              | Some c => addAllNodes fuel' g t2 element c
              | None => Returns t2
              end
              (fun t3 =>
                 match nextSibling g n with
                 | Some s => addAllNodes fuel' g t3 parentEl s
                 | None => Returns t3
                 end)
          else Returns t2
      end
  end.

(** The constructor: the walk from the root, under the panel. *)
Definition Tree_new (fuel : nat) (g : NodeGraph) : outcome :=
  addAllNodes fuel g Tree_fields treeElem (rootNode g).

Definition onClick (g : NodeGraph) (t : Tree) (event : MouseEvent) :
    Tree * list Call :=
  match getTreeItem (target event) with
  | None => (t, [])
  | Some item =>
      let '(t1, c1) :=
        if shiftKey event then
          match lastClicked t with
          | Some l =>
              let nodes := getNodesBetween l item in
              (select t nodes false, [Select nodes false])
          | None => (t, [])
          end
        else
          (select t [item] (ctrlKey event),
           [Select [item] (ctrlKey event)]) in
      let '(t2, c2) := setLastClickItem g t1 (Some item) in
      (t2, StopPropagation :: c1 ++ c2)
  end.

Fixpoint canDrop_loop (fuel : nat) (g : NodeGraph)
    (d : option (list Node)) (cur : option Node) : option bool :=
  match cur with
  | None => Some true
  | Some p =>
      match fuel with
      | 0 => None
      | S fuel' =>
          if includes d p then Some false
          else canDrop_loop fuel' g d (parent g p)
      end
  end.

Definition canDrop (fuel : nat) (g : NodeGraph) (t : Tree)
    (event : MouseEvent) : option bool :=
  match getTreeItem (target event) with
  | None => Some false
  | Some n =>
      if includes (dragging t) n then Some false
      else canDrop_loop fuel g (dragging t) (parent g n)
  end.

Definition onDragOver (fuel : nat) (g : NodeGraph) (t : Tree)
    (event : MouseEvent) : option (list Call) :=
  match canDrop fuel g t event with
  | None => None
  | Some false => Some []
  | Some true => Some [PreventDefault; SetDropEffect "move"]
  end.

Definition onDragLeave (fuel : nat) (g : NodeGraph) (t : Tree)
    (event : MouseEvent) : option (list Call) :=
  match canDrop fuel g t event with
  | None => None
  | Some _ => Some []
  end.

(** [this.dragging?.forEach((x) => x.parent?.move(x, newParent, target))]
    on the graph as each call leaves it. *)
Fixpoint drop_moves (g : NodeGraph) (xs : list Node)
    (newParent target : option Node) : NodeGraph * list MoveCall :=
  match xs with
  | [] => (g, [])
  | x :: xs' =>
      match parent g x with
      | Some p =>
          let c := {| mv_receiver := p; mv_child := x;
                      mv_newGroup := newParent; mv_previous := target |} in
          let '(g', cs) := drop_moves (move g c) xs' newParent target in
          (g', c :: cs)
      | None => drop_moves g xs' newParent target
      end
  end.

Definition onDrop (g : NodeGraph) (t : Tree) (event : MouseEvent) :
    Tree * NodeGraph * list Call :=
  match getTreeItem (target event) with
  | None => (t, g, [PreventDefault; StopPropagation])
  | Some n =>
      let isLinkList := isLinkedListNode g n in
      let newParent := if isLinkList then Some n else parent g n in
      let target := if isLinkList then None else Some n in
      let '(g', body) :=
        drop_moves g (default [] (dragging t)) newParent target in
      (set_dragging None t, g',
       [PreventDefault; StopPropagation; Excute "move node" body])
  end.

(** [node.parent === undefined || !this.selectedNodes.has(node.parent)] *)
Definition parentNotSelected (g : NodeGraph) (t : Tree) (n : Node) : bool :=
  match parent g n with
  | None => true
  | Some p => negb (bool_decide (p ∈ selectedNodes t))
  end.

Definition findAllCommonParents (g : NodeGraph) (t : Tree) : list Node :=
  filter (fun n => parentNotSelected g t n = true) (selectedNodes t).

Definition onDragStart (g : NodeGraph) (t : Tree) (event : MouseEvent) :
    Tree * list Call :=
  let item := getTreeItem (target event) in
  let result := findAllCommonParents g t in
  let pushed :=
    match item with
    | Some i => if bool_decide (i ∈ selectedNodes t) then result
                else result ++ [i]
    | None => result
    end in
  (set_dragging (Some pushed) t, [StopPropagation]).

End TreeView.

(** ** Vocabulary of the properties *)

(** [a] is met when walking up from [n] through [parent]. *)
Inductive ancestor (g : NodeGraph) : Node -> Node -> Prop :=
| ancestor_parent n p :
    parent g n = Some p -> ancestor g p n
| ancestor_up n p a :
    parent g n = Some p -> ancestor g a p -> ancestor g a n.

(** The walk through [parent] that starts at [cur] ends after [d] nodes:
    no cycle on the way to the root. *)
Inductive chain_ends (g : NodeGraph) : option Node -> nat -> Prop :=
| chain_ends_none : chain_ends g None 0
| chain_ends_some p d :
    chain_ends g (parent g p) d -> chain_ends g (Some p) (S d).

(** The calls to [selection.select] in a log, and the transactions. *)
Definition select_calls (cs : list Call) : list (list Node * bool) :=
  omap (fun c => match c with
                 | Select ns a => Some (ns, a)
                 | _ => None
                 end) cs.

Definition transactions (cs : list Call) : list (string * list MoveCall) :=
  omap (fun c => match c with
                 | Excute name body => Some (name, body)
                 | _ => None
                 end) cs.

(** The move that [onDrop] asks for a dragged node [x]. *)
Definition move_of (g : NodeGraph) (newParent anchor : option Node)
    (x : Node) : option MoveCall :=
  (fun p => {| mv_receiver := p; mv_child := x;
               mv_newGroup := newParent; mv_previous := anchor |})
    <$> parent g x.

(** [a] is on the walk through [parent] that starts at [cur]. *)
Definition on_chain (g : NodeGraph) (cur : option Node) (a : Node) : Prop :=
  exists p, cur = Some p /\ (a = p \/ ancestor g a p).

(** ** The node graph as child lists, and what a record does to it *)

(** [n] placed in a child list with [pre] as previous sibling: first when
    there is none. *)
Definition place (n : Node) (pre : option Node) (l : list Node) : list Node :=
  match pre with
  | Some q => insert_after n q l
  | None => n :: l
  end.

(** The children of a node in sibling order, read through [firstChild]
    and [nextSibling]. *)
Fixpoint siblings_from (fuel : nat) (g : NodeGraph) (cur : option Node) :
    list Node :=
  match fuel, cur with
  | S fuel', Some c => c :: siblings_from fuel' g (nextSibling g c)
  | _, _ => []
  end.

Definition childrenOf (fuel : nat) (g : NodeGraph) (n : Node) : list Node :=
  if isLinkedListNode g n then siblings_from fuel g (firstChild g n) else [].

(** Modelled from the spec: the structural edit of the Node Graph that a
    Change Record describes (the graph's own code is not among the
    sources).  The node leaves the children of its old parent, if any, and
    enters the children of its new parent, if any, with the new previous
    sibling before it.  [C] maps a node to the list of its children in
    sibling order. *)
Definition graph_apply (C : gmap Node (list Node)) (record : NodeRecord) :
    gmap Node (list Node) :=
  let C1 :=
    match oldParent record with
    | Some p => <[p := without (node record) (children C p)]> C
    | None => C
    end in
  match newParent record with
  | Some p =>
      <[p := place (node record) (newPrevious record) (children C1 p)]> C1
  | None => C1
  end.

(** The entries of a list of nodes. *)
Definition entries (t : Tree) (l : list Node) : list (option Elem) :=
  (fun m => nodeMap t !! m) <$> l.

(** The view shows the child lists [C]: the children of the element of a
    node are the elements of the node's children, in the same order, and a
    node without element has no children. *)
Definition view_matches (t : Tree) (C : gmap Node (list Node)) : Prop :=
  map_Forall (fun n e =>
                Some <$> children (childLists t) e = entries t (children C n))
             (nodeMap t) /\
  map_Forall (fun n l => l <> [] -> is_Some (nodeMap t !! n)) C.

(** Elements are allocated below [nextElem]; the item of the element of a
    node is an item of that node. *)
Definition tree_inv (t : Tree) : Prop :=
  map_Forall (fun n e =>
                e < nextElem t /\ item_node <$> items t !! e = Some n)
             (nodeMap t) /\
  map_Forall (fun p _ => p < nextElem t) (childLists t).

(** [p] has a group element once the elements of the batch [all] are
    created. *)
Definition group_after (g : NodeGraph) (t : Tree) (all : list NodeRecord)
    (p : Node) : Prop :=
  match nodeMap t !! p with
  | Some e => instanceofTreeGroup (items t !! e) = true
  | None => p ∈ node <$> all /\ kind g p = LinkedListNode
  end.

(** A record that the view can follow, on the child lists [C] it finds:
    the node is nowhere but under the old parent; the new parent has a
    group element; the new previous sibling is a child of the new parent;
    without a new previous sibling the node is the only child. *)
Definition record_ok (g : NodeGraph) (t : Tree) (all : list NodeRecord)
    (C : gmap Node (list Node)) (r : NodeRecord) : Prop :=
  map_Forall (fun p l => node r ∈ l -> oldParent r = Some p) C /\
  match newParent r with
  | Some p =>
      group_after g t all p /\
      match newPrevious r with
      | Some q => q <> node r /\ q ∈ children C p
      | None => without (node r) (children C p) = []
      end
  | None => True
  end.

Fixpoint records_ok (g : NodeGraph) (t : Tree) (all : list NodeRecord)
    (C : gmap Node (list Node)) (rs : list NodeRecord) : Prop :=
  match rs with
  | [] => True
  | r :: rest =>
      record_ok g t all C r /\ records_ok g t all (graph_apply C r) rest
  end.

(** The element of the record's node exists or can be created. *)
Definition creatable (g : NodeGraph) (t : Tree) (r : NodeRecord) : Prop :=
  is_Some (nodeMap t !! node r) \/ kind g (node r) <> OtherNode.

Global Instance view_matches_dec t C : Decision (view_matches t C).
Proof. unfold view_matches, entries. apply _. Defined.

Global Instance tree_inv_dec t : Decision (tree_inv t).
Proof. unfold tree_inv. apply _. Defined.

Global Instance group_after_dec g t all p : Decision (group_after g t all p).
Proof. unfold group_after. destruct (nodeMap t !! p); apply _. Defined.

Global Instance record_ok_dec g t all C r : Decision (record_ok g t all C r).
Proof.
  unfold record_ok. destruct (newParent r); [|apply _].
  destruct (newPrevious r); apply _.
Defined.

Global Instance records_ok_dec g t all C rs :
  Decision (records_ok g t all C rs).
Proof. revert C. induction rs; intros C; simpl; apply _. Defined.

Global Instance creatable_dec g t r : Decision (creatable g t r).
Proof. unfold creatable. apply _. Defined.

(** ** A small scene *)

(** The root 0 holds the group 1, which holds the leaf 2, then the group 3
    and the leaf 4.  The leaf 5 and the group 6 are not in the graph yet;
    the other numbers are nodes of no known kind. *)
Definition scene : NodeGraph :=
  {| rootNode := 0;
     kind := fun n => match n with
                      | 0 | 1 | 3 | 6 => LinkedListNode
                      | 2 | 4 | 5 => ModelNode
                      | _ => OtherNode
                      end;
     parent := fun n => match n with
                        | 1 | 3 | 4 => Some 0
                        | 2 => Some 1
                        | _ => None
                        end;
     firstChild := fun n => match n with
                            | 0 => Some 1
                            | 1 => Some 2
                            | _ => None
                            end;
     nextSibling := fun n => match n with
                             | 1 => Some 3
                             | 3 => Some 4
                             | _ => None
                             end |}.


(** A root with two leaves. *)
Definition two_leaves : NodeGraph :=
  {| rootNode := 0;
     kind := fun n => match n with
                      | 0 => LinkedListNode
                      | _ => ModelNode
                      end;
     parent := fun n => match n with 1 | 2 => Some 0 | _ => None end;
     firstChild := fun n => match n with 0 => Some 1 | _ => None end;
     nextSibling := fun n => match n with 1 => Some 2 | _ => None end |}.

(** The tree that a constructor call leaves. *)
Definition built (o : outcome) : Tree :=
  match o with
  | Returns t => t
  | _ => Tree_fields
  end.

Definition scene_tree (expanded : bool) : Tree :=
  built (Tree_new expanded 8 scene).



(** The leaf 2 leaves the group 1 and goes after the group 3; the new leaf
    5 enters the new group 6, which then enters the root after the leaf
    4. *)
Definition scene_batch : list NodeRecord :=
  [ {| node := 2; oldParent := Some 1; oldPrevious := None;
       newParent := Some 0; newPrevious := Some 3 |};
    {| node := 5; oldParent := None; oldPrevious := None;
       newParent := Some 6; newPrevious := None |};
    {| node := 6; oldParent := None; oldPrevious := None;
       newParent := Some 0; newPrevious := Some 4 |} ].


(** ** Events and collaborators for the examples *)

Definition pointer_at (n : Node) : MouseEvent :=
  {| target := InnerElement (ItemElement n);
     shiftKey := false; ctrlKey := false; metaKey := false |}.

(** A click with the Meta (Cmd) key held, and nothing else. *)
Definition cmd_click (n : Node) : MouseEvent :=
  {| target := ItemElement n;
     shiftKey := false; ctrlKey := false; metaKey := true |}.

Definition shift_click (n : Node) : MouseEvent :=
  {| target := ItemElement n;
     shiftKey := true; ctrlKey := false; metaKey := false |}.

(** A selection manager that publishes nothing while [select] runs, and a
    range made of the two ends. *)
Definition quiet_select (t : Tree) (nodes : list Node) (additive : bool) :
    Tree := t.

Definition ends_between (a b : Node) : list Node := [a; b].

(** A move that gives the child its new parent. *)
Definition reparent (g : NodeGraph) (c : MoveCall) : NodeGraph :=
  {| rootNode := rootNode g;
     kind := kind g;
     parent := fun x => if decide (x = mv_child c) then mv_newGroup c
                        else parent g x;
     firstChild := firstChild g;
     nextSibling := nextSibling g |}.

(** The scene with the group 3 selected, with the group 1 dragged, and
    with the leaves 2 and 4 dragged. *)
Definition scene_selected : Tree :=
  set_selectedNodes (fun _ => [3]) (scene_tree true).

Definition scene_dragging (ds : list Node) : Tree :=
  set_dragging (Some ds) (scene_tree true).

(** The scene with the last click on the leaf 4. *)
Definition scene_clicked : Tree :=
  set_lastClicked (Some 4) (scene_tree true).

(** * More of the sources *)

(** ** The walk of the constructor *)

(** The nodes that [addAllNodes] comes to when it starts at a node: the
    node itself and, for a container only, what the walk reaches from its
    first child and from its next sibling. *)
Inductive walk_reaches (g : NodeGraph) : Node -> Node -> Prop :=
| walk_reaches_self n : walk_reaches g n n
| walk_reaches_child n c m :
    isLinkedListNode g n = true -> firstChild g n = Some c ->
    walk_reaches g c m -> walk_reaches g n m
| walk_reaches_sibling n s m :
    isLinkedListNode g n = true -> nextSibling g n = Some s ->
    walk_reaches g s m -> walk_reaches g n m.

(** The walk from [cur] is over within [h] nested calls and meets only
    containers and leaves. *)
Inductive walk_ends (g : NodeGraph) : option Node -> nat -> Prop :=
| walk_ends_none h : walk_ends g None h
| walk_ends_leaf n h :
    kind g n = ModelNode -> walk_ends g (Some n) (S h)
| walk_ends_group n h :
    kind g n = LinkedListNode ->
    walk_ends g (firstChild g n) h ->
    walk_ends g (nextSibling g n) h ->
    walk_ends g (Some n) (S h).

(** The nodes that the walk visits from [cur], in the order of the
    calls, when it is finite and meets only containers and leaves. *)
Inductive walk_from (g : NodeGraph) : option Node -> list Node -> Prop :=
| walk_from_none : walk_from g None []
| walk_from_leaf n :
    kind g n = ModelNode -> walk_from g (Some n) [n]
| walk_from_group n l1 l2 :
    kind g n = LinkedListNode ->
    walk_from g (firstChild g n) l1 ->
    walk_from g (nextSibling g n) l2 ->
    walk_from g (Some n) (n :: l1 ++ l2).

(** The siblings that the walk attaches under one parent element: from
    [cur] along [nextSibling], up to the first leaf. *)
Inductive sibling_walk (g : NodeGraph) : option Node -> list Node -> Prop :=
| sibling_walk_none : sibling_walk g None []
| sibling_walk_leaf c :
    isLinkedListNode g c = false -> sibling_walk g (Some c) [c]
| sibling_walk_group c l :
    isLinkedListNode g c = true ->
    sibling_walk g (nextSibling g c) l ->
    sibling_walk g (Some c) (c :: l).

(** The children that the walk shows for a node. *)
Definition shown_children (g : NodeGraph) (n : Node) (l : list Node) : Prop :=
  if isLinkedListNode g n then sibling_walk g (firstChild g n) l else l = [].

(** The elements in the child lists are allocated ones. *)
Definition elems_bounded (t : Tree) : Prop :=
  map_Forall (fun _ l => Forall (fun e => e < nextElem t) l) (childLists t).

(** The child lists that a view shows, read back through the items. *)
Definition view_lists (t : Tree) : gmap Node (list Node) :=
  (fun e => omap (fun c => item_node <$> items t !! c)
                 (children (childLists t) e)) <$> nodeMap t.

(** The scene with the group 1 and its leaf 2 selected, and the leaf 4. *)
Definition scene_nested_selection : Tree :=
  set_selectedNodes (fun _ => [2; 1; 4]) (scene_tree true).

Definition plain_click (n : Node) : MouseEvent :=
  {| target := ItemElement n;
     shiftKey := false; ctrlKey := false; metaKey := false |}.

(** An event on an element outside every tree item. *)
Definition stray_event : MouseEvent :=
  {| target := InnerElement LooseElement;
     shiftKey := false; ctrlKey := false; metaKey := false |}.

(** A selection manager whose notification clears the anchor while
    [select] runs, as [handleSelectionChanged] does. *)
Definition clearing_select (t : Tree) (nodes : list Node) (additive : bool) :
    Tree := set_lastClicked None t.

(** ** The helpers for the geometry kernel (class [OccHelps]) *)

Module OccHelps.

(** [TopAbs_ShapeEnum] of the kernel, and [ShapeType] and [CurveType] with
    the members that the class names. *)
Inductive TopAbs_ShapeEnum :=
| TopAbs_COMPOUND | TopAbs_COMPSOLID | TopAbs_SOLID | TopAbs_SHELL
| TopAbs_FACE | TopAbs_WIRE | TopAbs_EDGE | TopAbs_VERTEX | TopAbs_SHAPE.

Inductive ShapeType :=
| Shape | Compound | CompoundSolid | Solid | Shell | Face | Wire | Edge
| Vertex.

Inductive CurveType :=
| Line | Circle | Ellipse | Hyperbola | Parabola | BezierCurve
| BSplineCurve | OffsetCurve | OtherCurve.

Global Instance TopAbs_ShapeEnum_eq_dec : EqDecision TopAbs_ShapeEnum.
Proof. solve_decision. Defined.

(** A [TopoDS_Shape] handle: the answers of [ShapeType()] and of
    [HashCode(2147483647)], the class that a downcast of the kernel
    ([occ.TopoDS.Face_1] and the like) has given to the handle, if any,
    and the shape it stands for.  A downcast changes the class only. *)
Record TopoDS_Shape := {
  ShapeType_ : TopAbs_ShapeEnum;
  HashCode : Z;
  downcast : option TopAbs_ShapeEnum;
  tshape : nat
}.

Definition TopoDS_cast (c : TopAbs_ShapeEnum) (shape : TopoDS_Shape) :
    TopoDS_Shape :=
  {| ShapeType_ := ShapeType_ shape; HashCode := HashCode shape;
     downcast := Some c; tshape := tshape shape |}.

(** The wrapper classes of [./occShape], by their constructors. *)
Inductive IShape :=
| OccShape (s : TopoDS_Shape)
| OccCompound (s : TopoDS_Shape)
| OccCompoundSolid (s : TopoDS_Shape)
| OccSolid (s : TopoDS_Shape)
| OccShell (s : TopoDS_Shape)
| OccFace (s : TopoDS_Shape)
| OccWire (s : TopoDS_Shape)
| OccEdge (s : TopoDS_Shape)
| OccVertex (s : TopoDS_Shape).

(** A [Geom_Curve], by what [IsInstance_2] answers. *)
Definition Geom_Curve := string -> bool.

Definition hashCode (shape : TopoDS_Shape) : Z := HashCode shape.

Definition getCurveType (curve : Geom_Curve) : CurveType :=
  let isType (type : string) := curve type in
  if isType "Geom_Line" then Line
  else if isType "Geom_Circle" then Circle
  else if isType "Geom_Ellipse" then Ellipse
  else if isType "Geom_Hyperbola" then Hyperbola
  else if isType "Geom_Parabola" then Parabola
  else if isType "Geom_BezierCurve" then BezierCurve
  else if isType "Geom_BSplineCurve" then BSplineCurve
  else if isType "Geom_OffsetCurve" then OffsetCurve
  else OtherCurve.

Definition getShapeType (shape : TopoDS_Shape) : ShapeType :=
  match ShapeType_ shape with
  | TopAbs_COMPOUND => Compound
  | TopAbs_COMPSOLID => CompoundSolid
  | TopAbs_SOLID => Solid
  | TopAbs_SHELL => Shell
  | TopAbs_FACE => Face
  | TopAbs_WIRE => Wire
  | TopAbs_EDGE => Edge
  | TopAbs_VERTEX => Vertex
  | TopAbs_SHAPE => Shape
  end.

Definition getShapeEnum (shapeType : ShapeType) : TopAbs_ShapeEnum :=
  match shapeType with
  | Compound => TopAbs_COMPOUND
  | CompoundSolid => TopAbs_COMPSOLID
  | Solid => TopAbs_SOLID
  | Shell => TopAbs_SHELL
  | Face => TopAbs_FACE
  | Wire => TopAbs_WIRE
  | Edge => TopAbs_EDGE
  | Vertex => TopAbs_VERTEX
  | Shape => TopAbs_SHAPE
  end.

Definition getShape (shape : TopoDS_Shape) : IShape :=
  match ShapeType_ shape with
  | TopAbs_COMPOUND => OccCompound (TopoDS_cast TopAbs_COMPOUND shape)
  | TopAbs_COMPSOLID => OccCompoundSolid (TopoDS_cast TopAbs_COMPSOLID shape)
  | TopAbs_SOLID => OccSolid (TopoDS_cast TopAbs_SOLID shape)
  | TopAbs_SHELL => OccShell (TopoDS_cast TopAbs_SHELL shape)
  | TopAbs_FACE => OccFace (TopoDS_cast TopAbs_FACE shape)
  | TopAbs_WIRE => OccWire (TopoDS_cast TopAbs_WIRE shape)
  | TopAbs_EDGE => OccEdge (TopoDS_cast TopAbs_EDGE shape)
  | TopAbs_VERTEX => OccVertex (TopoDS_cast TopAbs_VERTEX shape)
  | TopAbs_SHAPE => OccShape shape
  end.

Definition getActualShape (shape : TopoDS_Shape) : TopoDS_Shape :=
  match ShapeType_ shape with
  | TopAbs_COMPOUND => TopoDS_cast TopAbs_COMPOUND shape
  | TopAbs_COMPSOLID => TopoDS_cast TopAbs_COMPSOLID shape
  | TopAbs_SOLID => TopoDS_cast TopAbs_SOLID shape
  | TopAbs_SHELL => TopoDS_cast TopAbs_SHELL shape
  | TopAbs_FACE => TopoDS_cast TopAbs_FACE shape
  | TopAbs_WIRE => TopoDS_cast TopAbs_WIRE shape
  | TopAbs_EDGE => TopoDS_cast TopAbs_EDGE shape
  | TopAbs_VERTEX => TopoDS_cast TopAbs_VERTEX shape
  | TopAbs_SHAPE => shape
  end.

(** The loop of [findAncestors], on the list [item] that the map of the
    kernel holds for the sub-shape: while the list is not empty, the
    actual shape of its last element is pushed and its first element is
    removed. *)
Fixpoint findAncestors (item : list TopoDS_Shape) : list TopoDS_Shape :=
  match item with
  | [] => []
  | x :: rest => getActualShape (default x (last item)) :: findAncestors rest
  end.

(** The generator [findSubShapes], on the shapes that the explorer of the
    kernel brings, in its order; the yielded shapes as a list. *)
Fixpoint findSubShapes_from (hashes : gmap Z bool) (unique : bool)
    (explored : list TopoDS_Shape) : list TopoDS_Shape :=
  match explored with
  | [] => []
  | item :: rest =>
      if negb unique then item :: findSubShapes_from hashes unique rest
      else
        let hash := hashCode item in
        if decide (is_Some (hashes !! hash)) then
          findSubShapes_from hashes unique rest
        else
          getActualShape item ::
            findSubShapes_from (<[hash := true]> hashes) unique rest
  end.

Definition findSubShapes (explored : list TopoDS_Shape) (unique : bool) :
    list TopoDS_Shape :=
  findSubShapes_from ∅ unique explored.

(** The wrapper class that goes with a shape type, and the class names
    that [getCurveType] asks for. *)
Definition wrapper (t : ShapeType) (s : TopoDS_Shape) : IShape :=
  match t with
  | Shape => OccShape s
  | Compound => OccCompound s
  | CompoundSolid => OccCompoundSolid s
  | Solid => OccSolid s
  | Shell => OccShell s
  | Face => OccFace s
  | Wire => OccWire s
  | Edge => OccEdge s
  | Vertex => OccVertex s
  end.

Definition className (t : CurveType) : option string :=
  match t with
  | Line => Some "Geom_Line"
  | Circle => Some "Geom_Circle"
  | Ellipse => Some "Geom_Ellipse"
  | Hyperbola => Some "Geom_Hyperbola"
  | Parabola => Some "Geom_Parabola"
  | BezierCurve => Some "Geom_BezierCurve"
  | BSplineCurve => Some "Geom_BSplineCurve"
  | OffsetCurve => Some "Geom_OffsetCurve"
  | OtherCurve => None
  end%string.

Definition classNames : list string :=
  [ "Geom_Line"; "Geom_Circle"; "Geom_Ellipse"; "Geom_Hyperbola";
    "Geom_Parabola"; "Geom_BezierCurve"; "Geom_BSplineCurve";
    "Geom_OffsetCurve" ]%string.

End OccHelps.

(** ** The view of the scene (class [ThreeView]) *)

Module ThreeView.

(** [CursorType]: the two members that [setCursor] names, and any other. *)
Inductive CursorType := Default | Drawing | OtherCursor.

(** [x.includes("Cursor")] *)
Definition includes_Cursor (x : string) : bool :=
  bool_decide (is_Some (String.index 0 "Cursor" x)).

(** The class list of the container: an ordered set of names.
    [classList.remove(...classes)] takes the names out,
    [classList.add(x)] puts a name at the end unless it is there. *)
Definition classList_remove (classes l : list string) : list string :=
  filter (fun x => x ∉ classes) l.

Definition classList_add (x : string) (l : list string) : list string :=
  if bool_decide (x ∈ l) then l else l ++ [x].

Definition setCursor (cursorType : CursorType) (classList : list string) :
    list string :=
  let l1 :=
    match cursorType with
    | Default =>
        let classes := filter (fun x => includes_Cursor x = true) classList in
        classList_remove classes classList
    | _ => classList
    end in
  match cursorType with
  | Drawing => classList_add "drawingCursor" l1
  | _ => l1
  end.

(** The flag [_needRedraw], with the number of calls to
    [renderer.render] so far. *)
Record Frames := { needRedraw : bool; rendered : nat }.

Definition redraw (s : Frames) : Frames :=
  {| needRedraw := true; rendered := rendered s |}.

(** One run of [animate] (the next one is asked for from the browser). *)
Definition animate (s : Frames) : Frames :=
  if needRedraw s then {| needRedraw := false; rendered := S (rendered s) |}
  else s.

End ThreeView.

(** ** The line body (class [LineBody]) *)

Module LineBody.
Section LineBody.

(** Points, matrices with [Matrix4.ofPoint], and the line of the shape
    factory. *)
Variables (XYZ Matrix4 Result : Type).
Variable ofPoint : Matrix4 -> XYZ -> XYZ.
Variable line : XYZ -> XYZ -> Result.

Record LineBody := {
  initialStart : XYZ;
  initialEnd : XYZ;
  _start : XYZ;
  _end : XYZ
}.

(** The constructor, and the static [from]. *)
Definition new (start end_ : XYZ) : LineBody :=
  {| initialStart := start; initialEnd := end_;
     _start := start; _end := end_ |}.

Definition from (start end_ : XYZ) : LineBody := new start end_.

Definition generateShape (b : LineBody) : Result := line (_start b) (_end b).

Definition setMatrix (matrix : Matrix4) (b : LineBody) : LineBody :=
  {| initialStart := initialStart b; initialEnd := initialEnd b;
     _start := ofPoint matrix (initialStart b);
     _end := ofPoint matrix (initialEnd b) |}.

End LineBody.
End LineBody.

(** ** Inputs for the examples *)

(** A class list with no cursor class. *)
Definition plain_classes : list string := ["panel"; "view"]%string.

(** * Properties *)

(** ** Walking up the parents *)

Lemma ancestor_inv g a n :
  ancestor g a n ->
  exists p, parent g n = Some p /\ (a = p \/ ancestor g a p).
Proof. destruct 1 as [n p H|n p a H Ha]; eauto. Qed.

Lemma includes_Some ds n : includes (Some ds) n = true <-> n ∈ ds.
Proof. simpl. apply bool_decide_eq_true. Qed.

(** The loop of [canDrop] answers once the chain of parents ends, and it
    answers [false] exactly when a node of the chain is dragged. *)
Lemma canDrop_loop_spec g ds cur d :
  chain_ends g cur d ->
  forall fuel, d <= fuel ->
  exists b, canDrop_loop fuel g (Some ds) cur = Some b /\
    (b = false <->
     exists p a, cur = Some p /\ (a = p \/ ancestor g a p) /\ a ∈ ds).
Proof.
  induction 1 as [|p d Hc IH]; intros fuel Hle.
  - exists true. split; [by destruct fuel|].
    split; [done | intros (p & a & ? & _); done].
  - destruct fuel as [|fuel]; [lia|]. simpl.
    destruct (bool_decide (p ∈ ds)) eqn:Hp.
    + exists false. split; [done|]. split; [|done]. intros _.
      apply bool_decide_eq_true in Hp. exists p, p. auto.
    + apply bool_decide_eq_false in Hp.
      destruct (IH fuel ltac:(lia)) as (b & Hb & Hiff).
      exists b. split; [done|]. rewrite Hiff. split.
      * intros (q & a & Hq & Ha & Hin). exists p, a.
        split; [done|]. split; [|done]. right.
        destruct Ha as [->|Ha]; [by apply ancestor_parent|].
        by eapply ancestor_up.
      * intros (q & a & [= <-] & [->|Ha] & Hin); [done|].
        apply ancestor_inv in Ha as (q & Hq & Ha). eauto.
Qed.

(** C7. Drag-over validity: the target node is refused ([canDrop] is
    false and [onDragOver] leaves the event alone) exactly when it is in
    the drag set or one of its ancestors is; otherwise the event gets the
    "move" affordance.  So a descendant of a dragged node is refused and
    a node with no dragged ancestor is accepted. *)
Theorem canDrop_false_iff g t event n ds d fuel :
  getTreeItem (target event) = Some n ->
  dragging t = Some ds ->
  chain_ends g (parent g n) d ->
  d <= fuel ->
  exists b,
    canDrop fuel g t event = Some b /\
    (b = false <-> n ∈ ds \/ exists a, ancestor g a n /\ a ∈ ds) /\
    onDragOver fuel g t event =
      Some (if b then [PreventDefault; SetDropEffect "move"] else []).
Proof.
  intros Hn Hd Hc Hle. unfold onDragOver, canDrop. rewrite Hn, Hd.
  destruct (includes (Some ds) n) eqn:Hin.
  - exists false. apply includes_Some in Hin. by repeat split; auto.
  - destruct (canDrop_loop_spec g ds _ d Hc fuel Hle) as (b & Hb & Hiff).
    exists b. rewrite Hb. split; [done|]. split; [|by destruct b].
    rewrite Hiff. split.
    + intros (p & a & Hp & Ha & Hads). right. exists a. split; [|done].
      destruct Ha as [->|Ha]; [by apply ancestor_parent|].
      by eapply ancestor_up.
    + intros [Hn'|(a & Ha & Hads)].
      * apply includes_Some in Hn'. congruence.
      * apply ancestor_inv in Ha as (p & Hp & Ha). eauto 6.
Qed.

(** ** Drag start *)

Lemma findAllCommonParents_spec g t n :
  n ∈ findAllCommonParents g t <->
  n ∈ selectedNodes t /\
  (parent g n = None \/
   exists p, parent g n = Some p /\ p ∉ selectedNodes t).
Proof.
  unfold findAllCommonParents, parentNotSelected.
  rewrite list_elem_of_filter. split.
  - intros [Hp Hn]. split; [done|].
    destruct (parent g n) as [p|]; [right|by left].
    exists p. split; [done|].
    apply negb_true_iff, bool_decide_eq_false in Hp. done.
  - intros [Hn [Hp|(p & Hp & Hs)]]; (split; [|done]); rewrite Hp; [done|].
    by apply negb_true_iff, bool_decide_eq_false.
Qed.


(** ** Drop *)

Section Drop.
Variable move : NodeGraph -> MoveCall -> NodeGraph.

(** When a move leaves the parents of the other nodes alone, the calls
    of the loop are the moves of the dragged nodes that have a parent. *)
Lemma drop_moves_spec newParent anchor xs :
  (forall g c x, x <> mv_child c -> parent (move g c) x = parent g x) ->
  NoDup xs ->
  forall g g0,
    (forall x, x ∈ xs -> parent g x = parent g0 x) ->
    (drop_moves move g xs newParent anchor).2 =
      omap (move_of g0 newParent anchor) xs.
Proof.
  intros Hmove. induction 1 as [|x xs Hx Hnd IH]; intros g g0 Hg; [done|].
  simpl. unfold move_of at 1.
  rewrite <- (Hg x) by (by left).
  destruct (parent g x) as [p|]; simpl.
  - destruct (drop_moves _ _ xs _ _) as [g' cs] eqn:Hd. simpl. f_equal.
    change cs with (g', cs).2. rewrite <- Hd. apply IH.
    intros y Hy. rewrite Hmove; [apply Hg; by right|].
    simpl. intros ->. done.
  - apply IH. intros y Hy. apply Hg. by right.
Qed.

Lemma drop_moves_args g xs newParent anchor :
  Forall (fun c => mv_newGroup c = newParent /\ mv_previous c = anchor)
         (drop_moves move g xs newParent anchor).2.
Proof.
  revert g. induction xs as [|x xs IH]; intros g; simpl; [done|].
  destruct (parent g x) as [p|]; [|apply IH].
  specialize (IH (move g {| mv_receiver := p; mv_child := x;
                             mv_newGroup := newParent;
                             mv_previous := anchor |})).
  destruct (drop_moves _ _ xs _ _) as [g' cs]. simpl in *.
  by constructor.
Qed.

(** C6. A drop on the item of node [n] runs one transaction, named
    "move node", and every move of the drop is a call of its body.  The
    new parent is [n] itself when it is a container, with no sibling
    given, and the parent of [n] when it is a leaf, with [n] as the
    sibling.  Every dragged node that has a parent is moved, in the order
    of the drag set.  When the handler returns the drag set is gone. *)
Theorem onDrop_one_transaction g t event n :
  getTreeItem (target event) = Some n ->
  NoDup (default [] (dragging t)) ->
  (forall g c x, x <> mv_child c -> parent (move g c) x = parent g x) ->
  let ds := default [] (dragging t) in
  let newParent := if isLinkedListNode g n then Some n else parent g n in
  let anchor := if isLinkedListNode g n then None else Some n in
  let '(t', _, calls) := onDrop move g t event in
  dragging t' = None /\
  transactions calls =
    [("move node"%string, omap (move_of g newParent anchor) ds)] /\
  Forall (fun c => mv_newGroup c = newParent /\ mv_previous c = anchor)
         (omap (move_of g newParent anchor) ds).
Proof.
  intros Hn Hnd Hmove ds newParent anchor. unfold onDrop.
  rewrite Hn. simpl. fold ds newParent anchor.
  pose proof (drop_moves_spec newParent anchor ds Hmove Hnd g g
                (fun _ _ => eq_refl)) as Hbody.
  pose proof (drop_moves_args g ds newParent anchor) as Hargs.
  destruct (drop_moves move g ds newParent anchor) as [g' body].
  simpl in *. subst body. done.
Qed.

End Drop.

(** ** Click *)

Section Click.
Variable getNodesBetween : Node -> Node -> list Node.
Variable select : Tree -> list Node -> bool -> Tree.

(** C8 (as the code has it). A click on the item of a node calls
    [select] as follows: with Shift held, [select(nodesBetween(anchor,
    node), false)] when a last-clicked anchor exists and no call when
    there is none; without Shift, [select([node], ctrlKey)], so that a
    plain click is not additive and a Ctrl-click is.  The Meta (Cmd) key
    is not read. *)
Theorem onClick_select_calls g t event item :
  getTreeItem (target event) = Some item ->
  select_calls (onClick getNodesBetween select g t event).2 =
    if shiftKey event then
      match lastClicked t with
      | Some a => [(getNodesBetween a item, false)]
      | None => []
      end
    else [([item], ctrlKey event)].
Proof.
  intros Hi. unfold onClick. rewrite Hi.
  assert (Hs : forall t' it, select_calls (setLastClickItem g t' it).2 = []).
  { intros t' it. unfold setLastClickItem. simpl.
    destruct (lastClicked t') as [l|]; [destruct (nodeMap t' !! l)|];
      (destruct it as [i|]; [destruct (nodeMap t' !! i)|]); done. }
  destruct (shiftKey event); [destruct (lastClicked t) as [a|] eqn:Ha|].
  all: match goal with
       | |- context [setLastClickItem ?g' ?t' ?it] =>
           specialize (Hs t' it);
           destruct (setLastClickItem g' t' it) as [t2 c2]
       end; simpl in *; by rewrite ?Hs.
Qed.

End Click.

(** ** Scrolling to the first selected node *)

Lemma on_chain_parent g n a : on_chain g (parent g n) a <-> ancestor g a n.
Proof.
  split.
  - intros (p & Hp & [->|Ha]); [by apply ancestor_parent|].
    by eapply ancestor_up.
  - intros (p & Hp & Ha)%ancestor_inv. by exists p.
Qed.

Lemma on_chain_step g p a :
  on_chain g (parent g p) a -> on_chain g (Some p) a.
Proof. intros Ha%on_chain_parent. exists p. auto. Qed.

Lemma expand_nodeMap t e : nodeMap (expand t e) = nodeMap t.
Proof.
  unfold expand. by destruct (items t !! e) as [[? []|?]|].
Qed.

Lemma expand_other t e e' :
  e <> e' -> items (expand t e') !! e = items t !! e.
Proof.
  intros Hne. unfold expand.
  destruct (items t !! e') as [[? []|?]|]; simpl; try done.
  by rewrite lookup_insert_ne.
Qed.

Lemma expand_self t e m b :
  items t !! e = Some (TreeGroup m b) ->
  items (expand t e) !! e = Some (TreeGroup m true).
Proof.
  intros He. unfold expand. rewrite He.
  destruct b; simpl; [done|]. by rewrite lookup_insert_eq.
Qed.

Lemma expand_group t e e' m b :
  items t !! e = Some (TreeGroup m b) ->
  exists b', items (expand t e') !! e = Some (TreeGroup m b') /\
             (b = true -> b' = true).
Proof.
  intros He. destruct (decide (e = e')) as [<-|Hne].
  - exists true. split; [by eapply expand_self|done].
  - exists b. by rewrite expand_other.
Qed.

(** With an entry for every node of the chain and no cycle, the loop
    ends; it leaves every group of the chain expanded and touches no
    other item. *)
Lemma scroll_loop_spec g cur d :
  chain_ends g cur d ->
  forall fuel t,
    d <= fuel ->
    (forall a, on_chain g cur a -> is_Some (nodeMap t !! a)) ->
    exists t',
      scroll_loop fuel g t cur = Some t' /\
      nodeMap t' = nodeMap t /\
      (forall a e m b,
          on_chain g cur a -> nodeMap t !! a = Some e ->
          items t !! e = Some (TreeGroup m b) ->
          items t' !! e = Some (TreeGroup m true)) /\
      (forall e m,
          items t !! e = Some (TreeGroup m true) ->
          items t' !! e = Some (TreeGroup m true)) /\
      (forall e,
          (forall a, on_chain g cur a -> nodeMap t !! a <> Some e) ->
          items t' !! e = items t !! e).
Proof.
  induction 1 as [|p d Hc IH]; intros fuel t Hle Hall.
  - exists t. split; [by destruct fuel|]. split; [done|].
    split; [|done]. by intros a e m b (p & ? & _).
  - destruct fuel as [|fuel]; [lia|]. simpl. unfold scroll_turn.
    destruct (Hall p) as [group Hgroup]; [exists p; auto|].
    rewrite Hgroup.
    destruct (IH fuel (expand t group) ltac:(lia)) as
      (t' & Hrun & Hmap & Hchain & Hkeep & Hrest).
    { intros a Ha. rewrite expand_nodeMap. by apply Hall, on_chain_step. }
    rewrite expand_nodeMap in Hmap.
    exists t'. split; [done|]. split; [done|]. split; [|split].
    + intros a e m b (q & [= <-] & Ha) He Hi.
      destruct (expand_group t e group m b Hi) as (b' & Hi' & _).
      destruct Ha as [->|Ha].
      * assert (e = group) as -> by congruence.
        eapply Hkeep, expand_self, Hi.
      * eapply Hchain; [by apply on_chain_parent| |done].
        by rewrite expand_nodeMap.
    + intros e m Hi.
      destruct (expand_group t e group m true Hi) as (b' & Hi' & Hb).
      apply Hkeep. by rewrite <- (Hb eq_refl).
    + intros e He. rewrite Hrest.
      * apply expand_other. intros ->.
        by apply (He p); [exists p; auto|].
      * intros a Ha. rewrite expand_nodeMap. by apply He, on_chain_step.
Qed.

(** A node of the chain without entry is never passed. *)
Lemma scroll_loop_stuck g a fuel :
  forall t cur,
    on_chain g cur a -> nodeMap t !! a = None ->
    scroll_loop fuel g t cur = None.
Proof.
  induction fuel as [|fuel IH]; intros t cur (p & -> & Ha) Hnone; [done|].
  simpl. unfold scroll_turn.
  destruct (nodeMap t !! p) as [group|] eqn:Hp.
  - destruct Ha as [->|Ha]; [congruence|].
    apply IH; [by apply on_chain_parent|by rewrite expand_nodeMap].
  - apply IH; [|done]. exists p. auto.
Qed.


(** C10. One turn of the walk moves to the next ancestor only when the
    current one has an entry, and leaves everything as it is otherwise.
    When every ancestor of the first selected node has an entry (and the
    chain of parents ends), the walk ends.  When some ancestor has no
    entry, no number of turns ends the walk, and [scrollToNode] does not
    return. *)
Theorem scrollToNode_walk g t n rest :
  (forall p,
      scroll_turn g t p =
        match nodeMap t !! p with
        | Some group => (expand t group, parent g p)
        | None => (t, Some p)
        end) /\
  (forall d fuel,
      chain_ends g (parent g n) d -> d <= fuel ->
      (forall a, ancestor g a n -> is_Some (nodeMap t !! a)) ->
      is_Some (scroll_loop fuel g t (parent g n)) /\
      is_Some (scrollToNode fuel g t (n :: rest))) /\
  (forall a,
      ancestor g a n -> nodeMap t !! a = None ->
      forall fuel,
        scroll_loop fuel g t (parent g n) = None /\
        scrollToNode fuel g t (n :: rest) = None).
Proof.
  split; [done|]. split.
  - intros d fuel Hc Hle Hall.
    destruct (scroll_loop_spec g _ d Hc fuel t Hle) as (t' & Hrun & _).
    { intros a Ha%on_chain_parent. by apply Hall. }
    unfold scrollToNode. cbn [head]. rewrite Hrun. eauto.
  - intros a Ha Hnone fuel.
    assert (scroll_loop fuel g t (parent g n) = None) as Hrun
      by (eapply scroll_loop_stuck; [by apply on_chain_parent|done]).
    unfold scrollToNode. cbn [head]. by rewrite Hrun.
Qed.

(** ** Child lists *)

Lemma children_insert (m : gmap nat (list nat)) p l p' :
  children (<[p := l]> m) p' = if decide (p = p') then l else children m p'.
Proof.
  unfold children. rewrite lookup_insert. by destruct (decide (p = p')).
Qed.

Lemma children_detach m e p :
  children (detach e m) p = without e (children m p).
Proof.
  unfold children, detach. rewrite lookup_fmap.
  by destruct (m !! p).
Qed.

Lemma children_None (m : gmap nat (list nat)) p :
  m !! p = None -> children m p = [].
Proof. unfold children. by intros ->. Qed.

Lemma without_cons {A} `{EqDecision A} (x y : A) l :
  without x (y :: l) = if decide (y = x) then without x l
                       else y :: without x l.
Proof.
  unfold without. rewrite filter_cons.
  destruct (decide (y = x)) as [->|Hne].
  - by rewrite decide_False by (by intros []).
  - by rewrite decide_True.
Qed.

Lemma without_not_elem {A} `{EqDecision A} (x : A) l :
  x ∉ l -> without x l = l.
Proof.
  induction l as [|y l IH]; [done|]. intros Hx.
  rewrite without_cons.
  apply not_elem_of_cons in Hx as [Hne Hx].
  rewrite decide_False by done. by rewrite IH.
Qed.

Lemma elem_of_without {A} `{EqDecision A} (x y : A) l :
  y ∈ without x l <-> y ∈ l /\ y <> x.
Proof. unfold without. rewrite list_elem_of_filter. tauto. Qed.

(** ** Lists of elements that show lists of nodes *)

Section Shown.
Variable f : Node -> option Elem.
Hypothesis f_inj : forall m m' c, f m = Some c -> f m' = Some c -> m = m'.





End Shown.

(** ** Creating the elements of a batch *)

Section Reconcile.
Variable groupExpanded : bool.

Lemma createHTMLElement_None g t n :
  createHTMLElement groupExpanded g t n = None <-> kind g n = OtherNode.
Proof. unfold createHTMLElement. by destruct (kind g n). Qed.

Lemma createHTMLElement_Some g t n e t' :
  createHTMLElement groupExpanded g t n = Some (e, t') ->
  e = nextElem t /\ kind g n <> OtherNode /\
  exists i,
    item_node i = n /\
    instanceofTreeGroup (Some i) = isLinkedListNode g n /\
    t' = {| nodeMap := nodeMap t; items := <[nextElem t := i]> (items t);
            childLists := childLists t; nextElem := S (nextElem t);
            lastClicked := lastClicked t;
            selectedNodes := selectedNodes t; dragging := dragging t |}.
Proof.
  unfold createHTMLElement, isLinkedListNode.
  destruct (kind g n) eqn:Hk; intros [= <- <-]; (split; [done|]);
    (split; [done|]); eexists; (split; [|split; [|done]]); done.
Qed.

(** What the creation of the elements of a batch leaves and adds. *)
Lemma ensureHasHTML_Returns g rs :
  forall t t1,
    tree_inv t ->
    ensureHasHTML groupExpanded g t rs = Returns t1 ->
    tree_inv t1 /\
    childLists t1 = childLists t /\
    nextElem t <= nextElem t1 /\
    (forall e, e < nextElem t -> items t1 !! e = items t !! e) /\
    (forall n e, nodeMap t !! n = Some e -> nodeMap t1 !! n = Some e) /\
    (forall n e,
        nodeMap t1 !! n = Some e -> nodeMap t !! n = None ->
        n ∈ node <$> rs /\ nextElem t <= e /\
        instanceofTreeGroup (items t1 !! e) = isLinkedListNode g n) /\
    Forall (fun r => is_Some (nodeMap t1 !! node r)) rs.
Proof.
  induction rs as [|r rs IH]; intros t t1 Hinv Hrun; simpl in Hrun.
  { injection Hrun as <-. do 5 (split; [done|]). split; [|done].
    intros n e H1 H2. congruence. }
  destruct (nodeMap t !! node r) as [e0|] eqn:Hr.
  - destruct (IH t t1 Hinv Hrun) as (? & ? & ? & ? & Hkeep & Hnew & ?).
    do 5 (split; [done|]). split.
    + intros n e Hn1 Hn. destruct (Hnew n e Hn1 Hn) as (Hin & ? & ?).
      split; [|done]. rewrite fmap_cons. by right.
    + constructor; [|done]. rewrite (Hkeep _ _ Hr). eauto.
  - destruct (createHTMLElement groupExpanded g t (node r))
      as [[e t']|] eqn:Hcreate; [|done].
    apply createHTMLElement_Some in Hcreate
      as (-> & Hk & i & Hi & Hgroup & ->).
    destruct Hinv as [Hentries Hkeys].
    match type of Hrun with
    | ensureHasHTML _ _ ?t2 _ = _ => set (t2' := t2) in *
    end.
    assert (tree_inv t2') as Hinv2.
    { split; simpl.
      - apply map_Forall_insert_2.
        + split; [lia|]. by rewrite lookup_insert_eq, <- Hi.
        + intros n e Hn. destruct (Hentries n e Hn) as [Hlt Hit].
          split; [lia|]. rewrite lookup_insert_ne by lia. done.
      - intros p l Hp. specialize (Hkeys p l Hp). simpl in Hkeys. lia. }
    destruct (IH t2' t1 Hinv2 Hrun)
      as (? & Hlists & Hnext & Hitems & Hkeep & Hnew & ?).
    simpl in Hlists, Hnext, Hitems, Hkeep, Hnew.
    assert (nodeMap t1 !! node r = Some (nextElem t)) as Hr1
      by (apply Hkeep; by rewrite lookup_insert_eq).
    split; [done|]. split; [done|]. split; [lia|].
    split; [|split; [|split]].
    + intros e He. rewrite Hitems by lia. by rewrite lookup_insert_ne by lia.
    + intros n e Hn. apply Hkeep. rewrite lookup_insert_ne; [done|].
      intros <-. congruence.
    + intros n e Hn1 Hn. destruct (decide (n = node r)) as [->|Hne].
      * assert (e = nextElem t) as -> by congruence.
        split; [rewrite fmap_cons; by left|]. split; [lia|].
        rewrite Hitems by lia. by rewrite lookup_insert_eq.
      * destruct (Hnew n e Hn1) as (Hin & Hle & Hg);
          [by rewrite lookup_insert_ne|].
        split; [rewrite fmap_cons; by right|]. split; [lia|done].
    + constructor; [eauto|done].
Qed.




(** The walk of the constructor, on a leaf: whatever its next sibling is,
    the call returns with an element for the leaf only. *)
Lemma addAllNodes_leaf g t parentEl n fuel :
  kind g n = ModelNode ->
  exists t',
    addAllNodes groupExpanded (S fuel) g t parentEl n = Returns t' /\
    nodeMap t' = <[n := nextElem t]> (nodeMap t).
Proof.
  intros Hk. simpl. unfold createHTMLElement, isLinkedListNode.
  rewrite Hk. simpl. eauto.
Qed.

(** ** Applying a record *)

Lemma applyRecord_fields t r :
  nodeMap (applyRecord t r) = nodeMap t /\
  items (applyRecord t r) = items t /\
  nextElem (applyRecord t r) = nextElem t.
Proof.
  unfold applyRecord. repeat case_match; done.
Qed.

Lemma foldl_applyRecord_fields rs :
  forall t,
    nodeMap (foldl applyRecord t rs) = nodeMap t /\
    items (foldl applyRecord t rs) = items t /\
    nextElem (foldl applyRecord t rs) = nextElem t.
Proof.
  induction rs as [|r rs IH]; intros t; simpl; [done|].
  destruct (IH (applyRecord t r)) as (-> & -> & ->).
  apply applyRecord_fields.
Qed.














(** ** The initial walk keeps the state well formed *)

Lemma addAllNodes_inv g fuel :
  forall t parentEl n t',
    tree_inv t -> parentEl < nextElem t ->
    addAllNodes groupExpanded fuel g t parentEl n = Returns t' ->
    tree_inv t' /\ nextElem t <= nextElem t'.
Proof.
  induction fuel as [|fuel IH]; intros t parentEl n t' Hinv Hp Hrun; [done|].
  simpl in Hrun.
  destruct (createHTMLElement groupExpanded g t n) as [[e t1]|] eqn:Hcreate;
    [|done].
  apply createHTMLElement_Some in Hcreate as (-> & _ & i & Hi & _ & ->).
  match type of Hrun with
  | context [set_childLists ?f ?t0] => set (t2 := set_childLists f t0) in *
  end.
  assert (tree_inv t2 /\ nextElem t2 = S (nextElem t)) as [Hinv2 Hnext2].
  { split; [|done]. destruct Hinv as [Hent Hkeys]. split; simpl.
    - apply map_Forall_insert_2.
      + split; [lia|]. by rewrite lookup_insert_eq, <- Hi.
      + intros n' e' Hn'. destruct (Hent n' e' Hn') as [Hlt Hit].
        split; [lia|]. by rewrite lookup_insert_ne by lia.
    - unfold appendChild. apply map_Forall_insert_2; [lia|].
      unfold detach. apply map_Forall_fmap.
      intros p l Hl. specialize (Hkeys p l Hl). simpl in *. lia. }
  destruct (isLinkedListNode g n); [|injection Hrun as <-; split; [done|lia]].
  destruct (match firstChild g n with Some _ => _ | None => _ end)
    as [t3| |] eqn:Hfirst; [|done..].
  assert (tree_inv t3 /\ nextElem t2 <= nextElem t3) as [Hinv3 Hnext3].
  { destruct (firstChild g n) as [c|].
    - apply (IH t2 (nextElem t) c t3 Hinv2); [lia|exact Hfirst].
    - injection Hfirst as <-. by split. }
  simpl in Hrun. destruct (nextSibling g n) as [s|].
  - destruct (IH t3 parentEl s t' Hinv3) as [? ?]; [lia|exact Hrun|].
    split; [done|lia].
  - injection Hrun as <-. split; [done|lia].
Qed.

Lemma Tree_new_inv g fuel t :
  Tree_new groupExpanded fuel g = Returns t -> tree_inv t.
Proof.
  intros Hrun.
  apply (addAllNodes_inv g fuel Tree_fields treeElem (rootNode g) t);
    [|unfold treeElem; simpl; lia|done].
  split; apply map_Forall_empty.
Qed.

(** ** The two passes of the reconciliation *)

(** After the creation pass the nodes with an element are those that had
    one and those of the records. *)
Lemma ensureHasHTML_nodeMap g rs :
  forall t t1,
    ensureHasHTML groupExpanded g t rs = Returns t1 ->
    forall n,
      is_Some (nodeMap t1 !! n) <->
      is_Some (nodeMap t !! n) \/ n ∈ node <$> rs.
Proof.
  induction rs as [|r rs IH]; intros t t1 Hrun n; simpl in Hrun.
  { injection Hrun as <-. rewrite fmap_nil, elem_of_nil. tauto. }
  rewrite fmap_cons, elem_of_cons.
  destruct (nodeMap t !! node r) as [e0|] eqn:Hr.
  - rewrite (IH t t1 Hrun). split; [tauto|].
    intros [?|[->|?]]; [tauto| |tauto]. left. by rewrite Hr.
  - destruct (createHTMLElement groupExpanded g t (node r))
      as [[e t']|] eqn:Hcreate; [|done].
    apply createHTMLElement_Some in Hcreate as (-> & _ & i & _ & _ & ->).
    rewrite (IH _ t1 Hrun). simpl.
    destruct (decide (n = node r)) as [->|Hne].
    + rewrite lookup_insert_eq. split; [tauto|]. intros _. left. eauto.
    + rewrite lookup_insert_ne by done. tauto.
Qed.





End Reconcile.

(** * The properties on the small scene *)






(** C5, on the code.  The root holds the leaves 1 and 2.  The walk of the
    constructor makes an element for the root and for the leaf 1, and
    returns: the leaf 2, next sibling of a leaf, has no element and the
    element of the root has one child. *)
Theorem Tree_new_stops_after_leaf :
  childrenOf 8 two_leaves 0 = [1; 2] /\
  exists t,
    Tree_new true 8 two_leaves = Returns t /\
    nodeMap t !! 0 = Some 1 /\
    nodeMap t !! 1 = Some 2 /\
    nodeMap t !! 2 = None /\
    children (childLists t) 1 = [2] /\
    ~ view_matches t {[ 0 := [1; 2] ]}.
Proof.
  split; [done|]. eexists. split; [vm_compute; reflexivity|].
  do 4 (split; [compute_done|]). compute_done.
Qed.

(** The walks through the parents of the scene. *)
Lemma scene_chain_leaf : chain_ends scene (parent scene 2) 2.
Proof.
  change (chain_ends scene (Some 1) 2). constructor.
  change (chain_ends scene (Some 0) 1). constructor.
  change (chain_ends scene None 0). constructor.
Defined.

Lemma scene_chain_child n :
  parent scene n = Some 0 -> chain_ends scene (parent scene n) 1.
Proof.
  intros ->. constructor. change (chain_ends scene None 0). constructor.
Defined.

Lemma scene_ancestor a n :
  ancestor scene a n -> a = 0 \/ (a = 1 /\ n = 2).
Proof.
  induction 1 as [n p Hp|n p a Hp _ IH].
  - destruct n as [|[|[|[|[|n]]]]]; simpl in Hp; simplify_eq; auto.
  - destruct IH as [->|[-> ->]]; [by left|].
    destruct n as [|[|[|[|[|n]]]]]; simpl in Hp; simplify_eq.
Defined.

Lemma onDrop_one_transaction_witness :
  (let '(t', _, calls) :=
     onDrop reparent scene (scene_dragging [2; 4]) (pointer_at 3) in
   dragging t' = None /\
   transactions calls =
     [("move node"%string,
       [ {| mv_receiver := 1; mv_child := 2;
            mv_newGroup := Some 3; mv_previous := None |};
         {| mv_receiver := 0; mv_child := 4;
            mv_newGroup := Some 3; mv_previous := None |} ])] /\
   Forall (fun c => mv_newGroup c = Some 3 /\ mv_previous c = None)
          (omap (move_of scene (Some 3) None) [2; 4])) /\
  (let '(t', _, calls) :=
     onDrop reparent scene (scene_dragging [2]) (pointer_at 4) in
   dragging t' = None /\
   transactions calls =
     [("move node"%string,
       [ {| mv_receiver := 1; mv_child := 2;
            mv_newGroup := Some 0; mv_previous := Some 4 |} ])] /\
   Forall (fun c => mv_newGroup c = Some 0 /\ mv_previous c = Some 4)
          (omap (move_of scene (Some 0) (Some 4)) [2])).
Proof.
  assert (forall g c x, x <> mv_child c ->
                        parent (reparent g c) x = parent g x) as Hmove.
  { intros g c x Hx. simpl. by rewrite decide_False. }
  split.
  - apply (onDrop_one_transaction reparent scene (scene_dragging [2; 4])
             (pointer_at 3) 3); [done|compute_done|done].
  - apply (onDrop_one_transaction reparent scene (scene_dragging [2])
             (pointer_at 4) 4); [done|compute_done|done].
Defined.

Lemma canDrop_false_iff_witness :
  (exists b,
      canDrop 2 scene (scene_dragging [1]) (pointer_at 2) = Some b /\
      (b = false <->
       2 ∈ [1] \/ exists a, ancestor scene a 2 /\ a ∈ [1]) /\
      onDragOver 2 scene (scene_dragging [1]) (pointer_at 2) =
        Some (if b then [PreventDefault; SetDropEffect "move"] else [])) /\
  (exists b,
      canDrop 2 scene (scene_dragging [1]) (pointer_at 3) = Some b /\
      (b = false <->
       3 ∈ [1] \/ exists a, ancestor scene a 3 /\ a ∈ [1]) /\
      onDragOver 2 scene (scene_dragging [1]) (pointer_at 3) =
        Some (if b then [PreventDefault; SetDropEffect "move"] else [])).
Proof.
  split.
  - apply (canDrop_false_iff scene (scene_dragging [1]) (pointer_at 2)
             2 [1] 2 2); [done|done|apply scene_chain_leaf|lia].
  - apply (canDrop_false_iff scene (scene_dragging [1]) (pointer_at 3)
             3 [1] 1 2); [done|done|by apply scene_chain_child|lia].
Defined.

(** C8, as stated, fails.  A click with the Cmd key held, the Meta key of
    the event, calls [select([node], false)]: it is not additive. *)
Lemma cmd_click_is_not_additive :
  getTreeItem (target (cmd_click 2)) = Some 2 /\
  metaKey (cmd_click 2) = true /\
  select_calls
    (onClick ends_between quiet_select scene (scene_tree true)
       (cmd_click 2)).2 = [([2], false)].
Proof. repeat split; compute_done. Qed.

Lemma onClick_select_calls_witness :
  select_calls
    (onClick ends_between quiet_select scene scene_clicked
       (shift_click 2)).2 = [([4; 2], false)].
Proof.
  apply (onClick_select_calls ends_between quiet_select scene scene_clicked
           (shift_click 2) 2). reflexivity.
Defined.


Lemma scrollToNode_walk_witness :
  (is_Some (scroll_loop 2 scene (scene_tree true) (parent scene 2)) /\
   is_Some (scrollToNode 2 scene (scene_tree true) [2])) /\
  (forall fuel,
      scroll_loop fuel scene Tree_fields (parent scene 2) = None /\
      scrollToNode fuel scene Tree_fields [2] = None).
Proof.
  split.
  - apply (scrollToNode_walk scene (scene_tree true) 2 []) with (d := 2);
      [apply scene_chain_leaf|lia|].
    intros a [->|[-> _]]%scene_ancestor; compute_done.
  - apply (scrollToNode_walk scene Tree_fields 2 []) with (a := 1);
      [|done].
    by apply ancestor_parent.
Defined.

(** The scenario of the collapsed group: the root and the group 1 are
    collapsed; selecting the leaf 2 expands both and scrolls to the
    element of 2. *)
Example select_leaf_in_collapsed_group :
  items (scene_tree false) !! 1 = Some (TreeGroup 0 false) /\
  items (scene_tree false) !! 2 = Some (TreeGroup 1 false) /\
  exists t' calls,
    handleSelectionChanged 2 scene (scene_tree false) [2] [] =
      Some (t', calls) /\
    items t' !! 1 = Some (TreeGroup 0 true) /\
    items t' !! 2 = Some (TreeGroup 1 true) /\
    calls = [AddSelectedStyle 3 style_selected; ScrollIntoView 3].
Proof.
  do 2 (split; [compute_done|]).
  eexists _, _. split; [vm_compute; reflexivity|].
  repeat split; compute_done.
Qed.

(** * More properties of the panel *)

(** ** The selection kept by the panel *)

Lemma foldl_set_delete_elem (l s : list Node) n :
  n ∈ foldl (flip set_delete) s l <-> n ∈ s /\ n ∉ l.
Proof.
  revert s. induction l as [|x l IH]; intros s; simpl.
  - split; [intros ?; split; [done|apply not_elem_of_nil]|tauto].
  - rewrite IH. unfold set_delete. rewrite elem_of_without, not_elem_of_cons.
    tauto.
Qed.

Lemma foldl_set_delete_NoDup (l s : list Node) :
  NoDup s -> NoDup (foldl (flip set_delete) s l).
Proof.
  revert s. induction l as [|x l IH]; intros s Hs; simpl; [done|].
  apply IH. unfold set_delete, without. by apply NoDup_filter.
Qed.

Lemma set_add_elem x (s : list Node) n :
  n ∈ set_add x s <-> n ∈ s \/ n = x.
Proof.
  unfold set_add. destruct (bool_decide (x ∈ s)) eqn:Hx.
  - apply bool_decide_eq_true in Hx. split; [tauto|].
    intros [?| ->]; done.
  - rewrite elem_of_app, list_elem_of_singleton. tauto.
Qed.

Lemma set_add_NoDup x (s : list Node) : NoDup s -> NoDup (set_add x s).
Proof.
  intros Hs. unfold set_add. destruct (bool_decide (x ∈ s)) eqn:Hx; [done|].
  apply bool_decide_eq_false in Hx. apply NoDup_app. split; [done|].
  split; [|apply NoDup_singleton].
  intros y Hy ->%list_elem_of_singleton. done.
Qed.

Lemma foldl_set_add_elem (l s : list Node) n :
  n ∈ foldl (flip set_add) s l <-> n ∈ s \/ n ∈ l.
Proof.
  revert s. induction l as [|x l IH]; intros s; simpl.
  - rewrite elem_of_nil. tauto.
  - rewrite IH, set_add_elem, elem_of_cons. tauto.
Qed.

Lemma foldl_set_add_NoDup (l s : list Node) :
  NoDup s -> NoDup (foldl (flip set_add) s l).
Proof.
  revert s. induction l as [|x l IH]; intros s Hs; simpl; [done|].
  by apply IH, set_add_NoDup.
Qed.

Lemma expand_fields t e :
  selectedNodes (expand t e) = selectedNodes t /\
  lastClicked (expand t e) = lastClicked t /\
  dragging (expand t e) = dragging t /\
  childLists (expand t e) = childLists t.
Proof. unfold expand. by destruct (items t !! e) as [[? []|?]|]. Qed.

Lemma scroll_loop_fields g fuel :
  forall t cur t',
    scroll_loop fuel g t cur = Some t' ->
    selectedNodes t' = selectedNodes t /\
    lastClicked t' = lastClicked t /\
    dragging t' = dragging t /\
    nodeMap t' = nodeMap t /\
    childLists t' = childLists t.
Proof.
  induction fuel as [|fuel IH]; intros t cur t' Hrun.
  - destruct cur; [done|]. by injection Hrun as <-.
  - destruct cur as [p|]; [|by injection Hrun as <-].
    simpl in Hrun. unfold scroll_turn in Hrun.
    destruct (nodeMap t !! p) as [group|]; [|by apply IH in Hrun].
    apply IH in Hrun as (-> & -> & -> & -> & ->).
    destruct (expand_fields t group) as (-> & -> & -> & ->).
    by rewrite expand_nodeMap.
Qed.

Lemma handleSelectionChanged_lastClicked fuel g t selected unselected t'
    calls :
  handleSelectionChanged fuel g t selected unselected = Some (t', calls) ->
  lastClicked t' = None.
Proof.
  unfold handleSelectionChanged, setLastClickItem. cbn zeta.
  set (t3 := set_selectedNodes _ (set_lastClicked None _)).
  destruct (scrollToNode fuel g t3 selected) as [[t4 c4]|] eqn:Hscroll;
    [|done].
  intros [= <- _]. unfold scrollToNode in Hscroll.
  destruct (head selected) as [n0|]; [|by injection Hscroll as <-].
  destruct (scroll_loop fuel g t3 (parent g n0)) as [t5|] eqn:Hrun; [|done].
  injection Hscroll as <- _.
  by apply scroll_loop_fields in Hrun as (_ & -> & _).
Qed.

(** X1. When the handler of a selection change returns, the selection
    kept by the panel holds the newly selected nodes and those of the old
    ones that were not unselected, a node named in both lists being
    selected; it has no duplicate if it had none.  The anchor of the last
    click is gone, and the drag set, the entries and the child lists are
    as before. *)
Theorem handleSelectionChanged_selection fuel g t selected unselected t'
    calls :
  handleSelectionChanged fuel g t selected unselected = Some (t', calls) ->
  (forall n,
      n ∈ selectedNodes t' <->
      n ∈ selected \/ (n ∈ selectedNodes t /\ n ∉ unselected)) /\
  (NoDup (selectedNodes t) -> NoDup (selectedNodes t')) /\
  lastClicked t' = None /\
  dragging t' = dragging t /\
  nodeMap t' = nodeMap t /\
  childLists t' = childLists t.
Proof.
  unfold handleSelectionChanged, setLastClickItem. cbn zeta.
  set (t3 := set_selectedNodes _ (set_lastClicked None _)).
  unfold scrollToNode.
  destruct (head selected) as [n0|].
  - destruct (scroll_loop fuel g t3 (parent g n0)) as [t4|] eqn:Hrun; [|done].
    intros [= <- _].
    apply scroll_loop_fields in Hrun as (-> & -> & -> & -> & ->).
    subst t3. simpl. split; [|split; [|done]].
    + intros n. rewrite foldl_set_add_elem, foldl_set_delete_elem. tauto.
    + intros Hs. by apply foldl_set_add_NoDup, foldl_set_delete_NoDup.
  - intros [= <- _]. subst t3. simpl. split; [|split; [|done]].
    + intros n. rewrite foldl_set_add_elem, foldl_set_delete_elem. tauto.
    + intros Hs. by apply foldl_set_add_NoDup, foldl_set_delete_NoDup.
Qed.

(** ** Clicks *)

Section MoreClick.
Variable getNodesBetween : Node -> Node -> list Node.
Variable select : Tree -> list Node -> bool -> Tree.

Lemma select_calls_click sel c :
  select_calls (StopPropagation :: sel ++ c) =
    select_calls sel ++ select_calls c.
Proof. unfold select_calls. by rewrite <- omap_app. Qed.

Lemma setLastClickItem_Some g t item :
  lastClicked (setLastClickItem g t (Some item)).1 = Some item /\
  select_calls (setLastClickItem g t (Some item)).2 = [] /\
  last (setLastClickItem g t (Some item)).2 =
    Some (SetCurrentNode (if isLinkedListNode g item then Some item
                          else parent g item)).
Proof.
  unfold setLastClickItem. simpl. split; [done|].
  split; [|by rewrite !app_assoc, last_snoc].
  destruct (lastClicked t) as [l|]; [destruct (nodeMap t !! l)|];
    by destruct (nodeMap t !! item).
Qed.

(** The log of a click on an item: the event is stopped, then comes the
    call to [select], if any, then what [setLastClickItem] does on the
    state that [select] leaves. *)
Lemma onClick_log g t event item :
  getTreeItem (target event) = Some item ->
  exists t1 sel,
    onClick getNodesBetween select g t event =
      ((setLastClickItem g t1 (Some item)).1,
       StopPropagation :: sel ++ (setLastClickItem g t1 (Some item)).2) /\
    select_calls sel =
      if shiftKey event then
        match lastClicked t with
        | Some a => [(getNodesBetween a item, false)]
        | None => []
        end
      else [([item], ctrlKey event)].
Proof.
  intros Hi. unfold onClick. rewrite Hi.
  destruct (shiftKey event); [destruct (lastClicked t) as [a|]|].
  all: match goal with
       | |- context [setLastClickItem ?g' ?t' ?it] =>
           exists t'; destruct (setLastClickItem g' t' it) as [t2 c2] eqn:Hs
       end; eexists; split; [reflexivity|done].
Qed.

Lemma onClick_lastClicked g t event item :
  getTreeItem (target event) = Some item ->
  lastClicked (onClick getNodesBetween select g t event).1 = Some item.
Proof.
  intros Hi. destruct (onClick_log g t event item Hi) as (t1 & sel & -> & _).
  apply setLastClickItem_Some.
Qed.

(** X2. Whatever the selection manager does to the panel while [select]
    runs, a click on the item of a node leaves that node as the anchor of
    the last click; its first call stops the event, and its last call sets
    the current node of the document: the node itself when it is a
    container, its parent when it is a leaf. *)
Theorem onClick_anchor g t event item :
  getTreeItem (target event) = Some item ->
  lastClicked (onClick getNodesBetween select g t event).1 = Some item /\
  head (onClick getNodesBetween select g t event).2 =
    Some StopPropagation /\
  last (onClick getNodesBetween select g t event).2 =
    Some (SetCurrentNode (if isLinkedListNode g item then Some item
                          else parent g item)).
Proof.
  intros Hi. destruct (onClick_log g t event item Hi) as (t1 & sel & -> & _).
  destruct (setLastClickItem_Some g t1 item) as (Hl & _ & Hlast).
  destruct (setLastClickItem g t1 (Some item)) as [t2 c2]. simpl in *.
  split; [done|]. split; [done|].
  destruct c2 as [|c cs]; [done|].
  rewrite <- Hlast. rewrite app_comm_cons. apply last_app_cons.
Qed.

(** X3. Range selection: a click on the item of [a], then a click with
    Shift on the item of [b], makes one call to [select], with the nodes
    between [a] and [b] and not additive, whatever was selected before
    and whatever the first click's [select] did to the panel. *)
Theorem click_then_shift_click g t ev1 ev2 a b :
  getTreeItem (target ev1) = Some a ->
  getTreeItem (target ev2) = Some b ->
  shiftKey ev2 = true ->
  select_calls
    (onClick getNodesBetween select g
       (onClick getNodesBetween select g t ev1).1 ev2).2 =
    [(getNodesBetween a b, false)].
Proof.
  intros Ha Hb Hshift.
  pose proof (onClick_lastClicked g t ev1 a Ha) as Hanchor.
  destruct (onClick_log g (onClick getNodesBetween select g t ev1).1 ev2 b
              Hb) as (t1 & sel & -> & Hsel).
  rewrite Hshift, Hanchor in Hsel. cbn [snd].
  destruct (setLastClickItem_Some g t1 b) as (_ & Hnone & _).
  by rewrite select_calls_click, Hsel, Hnone.
Qed.

(** X4. A selection change takes the anchor away: on the state that its
    handler returns, a click with Shift makes no call to [select]; the
    clicked node becomes the new anchor. *)
Theorem shift_click_after_selection_change fuel g t selected unselected
    t' calls event item :
  handleSelectionChanged fuel g t selected unselected = Some (t', calls) ->
  getTreeItem (target event) = Some item ->
  shiftKey event = true ->
  select_calls (onClick getNodesBetween select g t' event).2 = [] /\
  lastClicked (onClick getNodesBetween select g t' event).1 = Some item.
Proof.
  intros Hrun Hi Hshift.
  apply handleSelectionChanged_lastClicked in Hrun as Hnone.
  split; [|by apply onClick_lastClicked].
  destruct (onClick_log g t' event item Hi) as (t1 & sel & -> & Hsel).
  rewrite Hshift, Hnone in Hsel. cbn [snd].
  destruct (setLastClickItem_Some g t1 item) as (_ & Hnone' & _).
  by rewrite select_calls_click, Hsel, Hnone'.
Qed.

End MoreClick.

(** ** Drag and drop *)

Lemma ancestor_trans g a x m :
  ancestor g a x -> ancestor g x m -> ancestor g a m.
Proof.
  intros Ha. induction 1 as [m p Hp|m p x Hp _ IH].
  - by eapply ancestor_up.
  - eapply ancestor_up; [done|]. by apply IH.
Qed.

Lemma chain_ends_ancestor g x m :
  ancestor g x m ->
  forall d, chain_ends g (parent g m) d ->
  exists d', chain_ends g (parent g x) d'.
Proof.
  induction 1 as [m p Hp|m p x Hp _ IH]; intros d Hc; rewrite Hp in Hc.
  - inversion Hc; subst. eauto.
  - inversion Hc; subst. eauto.
Qed.

(** The result of [canDrop] on the item of a node, for a drag set. *)
Lemma canDrop_result g t event n ds d fuel :
  getTreeItem (target event) = Some n ->
  dragging t = Some ds ->
  chain_ends g (parent g n) d ->
  d <= fuel ->
  exists b,
    canDrop fuel g t event = Some b /\
    (b = false <-> exists a, (a = n \/ ancestor g a n) /\ a ∈ ds).
Proof.
  intros Hn Hd Hc Hle. unfold canDrop. rewrite Hn, Hd.
  destruct (includes (Some ds) n) eqn:Hin.
  - exists false. apply includes_Some in Hin. split; [done|].
    split; [|done]. intros _. exists n. auto.
  - destruct (canDrop_loop_spec g ds _ d Hc fuel Hle) as (b & Hb & Hiff).
    exists b. split; [done|]. rewrite Hiff. split.
    + intros (p & a & Hp & Ha & Hads). exists a. split; [|done]. right.
      destruct Ha as [->|Ha]; [by apply ancestor_parent|].
      by eapply ancestor_up.
    + intros (a & [->|Ha] & Hads).
      * apply includes_Some in Hads. congruence.
      * apply ancestor_inv in Ha as (p & Hp & Ha). eauto 6.
Qed.

(** Every selected node is, or lies under, one of the nodes that
    [findAllCommonParents] returns. *)
Lemma findAllCommonParents_cover g t d :
  forall n,
    chain_ends g (parent g n) d ->
    n ∈ selectedNodes t ->
    exists a, (a = n \/ ancestor g a n) /\ a ∈ findAllCommonParents g t.
Proof.
  induction d as [|d IH]; intros n Hc Hn.
  - inversion Hc as [Hp|]. exists n. split; [by left|].
    apply findAllCommonParents_spec. auto.
  - inversion Hc as [|p d' Hc' Hp]; subst.
    destruct (decide (p ∈ selectedNodes t)) as [Hsel|Hsel].
    + destruct (IH p Hc' Hsel) as (a & Ha & Hroot).
      exists a. split; [|done]. right.
      destruct Ha as [->|Ha]; [by apply ancestor_parent|].
      by eapply ancestor_up.
    + exists n. split; [by left|].
      apply findAllCommonParents_spec. split; [done|]. right. eauto.
Qed.

(** X5. After a drag start, the selected nodes, the node under the
    pointer and all that lies under them are refused as drop targets:
    [canDrop] is false on the item of a node [m] that is one of them or
    has one of them as ancestor (the chain of parents of [m] being
    finite).  The roots that [findAllCommonParents] keeps cover the whole
    selection. *)
Theorem onDragStart_refuses_own_subtrees g t ev0 event m x d fuel :
  getTreeItem (target event) = Some m ->
  chain_ends g (parent g m) d ->
  d <= fuel ->
  x ∈ selectedNodes t \/ getTreeItem (target ev0) = Some x ->
  x = m \/ ancestor g x m ->
  canDrop fuel g (onDragStart g t ev0).1 event = Some false.
Proof.
  intros Hm Hc Hle Hx Hxm.
  assert (exists ds,
             dragging (onDragStart g t ev0).1 = Some ds /\
             exists a, (a = x \/ ancestor g a x) /\ a ∈ ds)
    as (ds & Hds & a & Ha & Hads).
  { unfold onDragStart. simpl. eexists. split; [done|].
    destruct (decide (x ∈ selectedNodes t)) as [Hsel|Hnot].
    - assert (exists d', chain_ends g (parent g x) d') as [d' Hc'].
      { destruct Hxm as [->|Hxm]; [eauto|].
        by eapply chain_ends_ancestor. }
      destruct (findAllCommonParents_cover g t d' x Hc' Hsel)
        as (a & Ha & Hroot).
      exists a. split; [done|].
      destruct (getTreeItem (target ev0)) as [i|]; [|done].
      destruct (bool_decide (i ∈ selectedNodes t)); [done|].
      apply elem_of_app. by left.
    - destruct Hx as [?|Hx]; [done|]. rewrite Hx.
      rewrite bool_decide_eq_false_2 by done.
      exists x. split; [by left|]. apply elem_of_app. right.
      by apply list_elem_of_singleton. }
  destruct (canDrop_result g (onDragStart g t ev0).1 event m ds d fuel
              Hm Hds Hc Hle) as (b & -> & Hiff).
  f_equal. apply Hiff. exists a. split; [|done].
  destruct Ha as [->|Ha]; [done|]. right.
  destruct Hxm as [->|Hxm]; [done|]. by eapply ancestor_trans.
Qed.

(** X6. The drag set of a drag start has no duplicate when the selection
    has none, and it holds only selected nodes and the node under the
    pointer. *)
Theorem onDragStart_NoDup g t event :
  NoDup (selectedNodes t) ->
  exists ds,
    dragging (onDragStart g t event).1 = Some ds /\
    NoDup ds /\
    forall x, x ∈ ds ->
              x ∈ selectedNodes t \/ getTreeItem (target event) = Some x.
Proof.
  intros Hs. unfold onDragStart. simpl. eexists. split; [done|].
  assert (NoDup (findAllCommonParents g t)) as Hroots
    by (by apply NoDup_filter).
  assert (forall x, x ∈ findAllCommonParents g t -> x ∈ selectedNodes t)
    as Hsub by (by intros x [? _]%findAllCommonParents_spec).
  destruct (getTreeItem (target event)) as [i|]; [|by auto].
  destruct (bool_decide (i ∈ selectedNodes t)) eqn:Hi; [by auto|].
  apply bool_decide_eq_false in Hi. split.
  - apply NoDup_app. split; [done|]. split; [|apply NoDup_singleton].
    intros y Hy ->%list_elem_of_singleton. auto.
  - intros x [?| ->%list_elem_of_singleton]%elem_of_app; auto.
Qed.

Lemma canDrop_loop_no_drag g cur d :
  chain_ends g cur d ->
  forall fuel, d <= fuel -> canDrop_loop fuel g None cur = Some true.
Proof.
  induction 1 as [|p d Hc IH]; intros fuel Hle; [by destruct fuel|].
  destruct fuel as [|fuel]; [lia|]. simpl. apply IH. lia.
Qed.

Section MoreDrop.
Variable move : NodeGraph -> MoveCall -> NodeGraph.

(** X7. A drop on the item of a node leaves no drag set, and without
    drag set nothing is refused: afterwards [canDrop] is true on every
    tree item, in whatever graph the moves have left. *)
Theorem onDrop_then_canDrop g t event n g' event' m d fuel :
  getTreeItem (target event) = Some n ->
  getTreeItem (target event') = Some m ->
  chain_ends g' (parent g' m) d ->
  d <= fuel ->
  canDrop fuel g' (onDrop move g t event).1.1 event' = Some true.
Proof.
  intros Hn Hm Hc Hle. unfold onDrop. rewrite Hn.
  destruct (drop_moves _ _ _ _ _) as [g1 body]. simpl.
  unfold canDrop. rewrite Hm. simpl.
  by eapply canDrop_loop_no_drag.
Qed.

(** X8. A drop whose event lies in no tree item runs no transaction,
    leaves the graph alone and keeps the drag set: the nodes that were
    dragged are still refused as drop targets afterwards. *)
Theorem onDrop_outside_keeps_drag_set g t event ds x event' fuel :
  getTreeItem (target event) = None ->
  dragging t = Some ds ->
  x ∈ ds ->
  getTreeItem (target event') = Some x ->
  transactions (onDrop move g t event).2 = [] /\
  (onDrop move g t event).1.2 = g /\
  dragging (onDrop move g t event).1.1 = Some ds /\
  canDrop fuel g (onDrop move g t event).1.1 event' = Some false.
Proof.
  intros Hnone Hds Hx Hx'. unfold onDrop. rewrite Hnone. simpl.
  do 3 (split; [done|]). unfold canDrop. rewrite Hx', Hds.
  by rewrite (proj2 (includes_Some ds x) Hx).
Qed.

End MoreDrop.

(** ** Entries and elements *)

Section MoreReconcile.
Variable groupExpanded : bool.

(** X9. The reconciliation never takes an entry away and never gives a
    node another element: a node that has an element keeps it through
    any batch, records of its removal included, and the item of that
    element is as it was, expanded or collapsed. *)
Theorem handleNodeLinkedChanged_keeps_entries g t records t' n e :
  tree_inv t ->
  handleNodeLinkedChanged groupExpanded g t records = Returns t' ->
  nodeMap t !! n = Some e ->
  nodeMap t' !! n = Some e /\ items t' !! e = items t !! e.
Proof.
  intros Hinv Hrun Hn. unfold handleNodeLinkedChanged in Hrun.
  destruct (ensureHasHTML groupExpanded g t records) as [t1| |] eqn:Hpass;
    [|done..].
  simpl in Hrun. injection Hrun as <-.
  destruct (ensureHasHTML_Returns groupExpanded g records t t1 Hinv Hpass)
    as (_ & _ & _ & Hitems & Hkeep & _).
  destruct (foldl_applyRecord_fields records t1) as (-> & -> & _).
  split; [by apply Hkeep|]. apply Hitems.
  by destruct Hinv as [Hent _], (Hent n e Hn).
Qed.

Lemma ensureHasHTML_present g rs :
  forall t,
    Forall (fun r => is_Some (nodeMap t !! node r)) rs ->
    ensureHasHTML groupExpanded g t rs = Returns t.
Proof.
  induction rs as [|r rs IH]; intros t Hall; simpl; [done|].
  apply Forall_cons in Hall as [[e ->] Hall]. by apply IH.
Qed.

Lemma ensureHasHTML_size g rs :
  forall t t1,
    ensureHasHTML groupExpanded g t rs = Returns t1 ->
    size (nodeMap t1) + nextElem t = size (nodeMap t) + nextElem t1.
Proof.
  induction rs as [|r rs IH]; intros t t1 Hrun; simpl in Hrun.
  { by injection Hrun as <-. }
  destruct (nodeMap t !! node r) as [e0|] eqn:Hr; [by apply IH|].
  destruct (createHTMLElement groupExpanded g t (node r))
    as [[e t2]|] eqn:Hcreate; [|done].
  apply createHTMLElement_Some in Hcreate as (-> & _ & i & _ & _ & ->).
  apply IH in Hrun. simpl in Hrun.
  rewrite map_size_insert_None in Hrun by done. lia.
Qed.

(** X10. The creation pass makes one element for each node of the batch
    that had none, however many records name the node: the entries and
    the elements grow by the same number.  On the state it returns, the
    pass over the same batch creates nothing more. *)
Theorem ensureHasHTML_once g t records t1 :
  ensureHasHTML groupExpanded g t records = Returns t1 ->
  size (nodeMap t1) + nextElem t = size (nodeMap t) + nextElem t1 /\
  (forall n,
      is_Some (nodeMap t1 !! n) <->
      is_Some (nodeMap t !! n) \/ n ∈ node <$> records) /\
  ensureHasHTML groupExpanded g t1 records = Returns t1.
Proof.
  intros Hrun. split; [by eapply ensureHasHTML_size|].
  pose proof (ensureHasHTML_nodeMap groupExpanded g records t t1 Hrun)
    as Hmap.
  split; [done|]. apply ensureHasHTML_present.
  apply Forall_forall. intros r Hr. apply Hmap. right.
  apply list_elem_of_fmap. eauto.
Qed.

(** ** The walk of the constructor *)

Lemma walk_reaches_leaf g n m :
  isLinkedListNode g n = false -> walk_reaches g n m -> m = n.
Proof. intros Hn. inversion 1; subst; congruence. Qed.

(** The entries after the walk from a node are the entries before it and
    those of the nodes that the walk reaches. *)
Lemma addAllNodes_entries g fuel :
  forall t parentEl n t',
    addAllNodes groupExpanded fuel g t parentEl n = Returns t' ->
    forall m,
      is_Some (nodeMap t' !! m) <->
      is_Some (nodeMap t !! m) \/ walk_reaches g n m.
Proof.
  induction fuel as [|fuel IH]; intros t parentEl n t' Hrun m; [done|].
  simpl in Hrun.
  destruct (createHTMLElement groupExpanded g t n) as [[e t1]|] eqn:Hcreate;
    [|done].
  apply createHTMLElement_Some in Hcreate as (-> & _ & i & _ & _ & ->).
  match type of Hrun with
  | context [set_childLists ?f ?t0] => set (t2 := set_childLists f t0) in *
  end.
  assert (is_Some (nodeMap t2 !! m) <-> is_Some (nodeMap t !! m) \/ m = n)
    as Hstart.
  { subst t2. simpl. destruct (decide (m = n)) as [->|Hne].
    - rewrite lookup_insert_eq. split; [auto|]. intros _. eauto.
    - rewrite lookup_insert_ne by done. split; [auto|].
      by intros [?|?]. }
  destruct (isLinkedListNode g n) eqn:Hkind.
  - destruct (match firstChild g n with Some _ => _ | None => _ end)
      as [t3| |] eqn:Hfirst; [|done..].
    simpl in Hrun.
    assert (is_Some (nodeMap t3 !! m) <->
            is_Some (nodeMap t2 !! m) \/
            exists c, firstChild g n = Some c /\ walk_reaches g c m)
      as Hchild.
    { destruct (firstChild g n) as [c|].
      - rewrite (IH _ _ _ _ Hfirst m). split.
        + intros [?|?]; eauto.
        + intros [?|(c' & [= <-] & ?)]; auto.
      - injection Hfirst as <-. split; [auto|].
        by intros [?|(c' & ? & _)]. }
    assert (is_Some (nodeMap t' !! m) <->
            is_Some (nodeMap t3 !! m) \/
            exists s, nextSibling g n = Some s /\ walk_reaches g s m)
      as Hsibling.
    { destruct (nextSibling g n) as [s|].
      - rewrite (IH _ _ _ _ Hrun m). split.
        + intros [?|?]; eauto.
        + intros [?|(s' & [= <-] & ?)]; auto.
      - injection Hrun as <-. split; [auto|].
        by intros [?|(s' & ? & _)]. }
    rewrite Hsibling, Hchild, Hstart. split.
    + intros [[[?| ->]|(c & Hc & ?)]|(s & Hs & ?)]; auto.
      * right. apply walk_reaches_self.
      * right. by eapply walk_reaches_child.
      * right. by eapply walk_reaches_sibling.
    + intros [?|Hreach]; [auto|].
      inversion Hreach; subst; eauto 7.
  - injection Hrun as <-. rewrite Hstart. split.
    + intros [?| ->]; [auto|]. right. apply walk_reaches_self.
    + intros [?|Hreach]; [auto|]. right.
      by eapply walk_reaches_leaf.
Qed.

(** X11. The nodes that have an entry once the constructor has returned
    are those that its walk reaches from the root: the root, and from a
    container its first child and its next sibling.  The next sibling of a
    leaf is reached only if something else leads to it. *)
Theorem Tree_new_entries g fuel t m :
  Tree_new groupExpanded fuel g = Returns t ->
  (is_Some (nodeMap t !! m) <-> walk_reaches g (rootNode g) m).
Proof.
  intros Hrun. unfold Tree_new in Hrun.
  rewrite (addAllNodes_entries g fuel _ _ _ _ Hrun m). simpl.
  rewrite lookup_empty. split; [|auto].
  intros [[? ?]|?]; done.
Qed.

Lemma walk_ends_mono g cur h :
  walk_ends g cur h -> forall h', h <= h' -> walk_ends g cur h'.
Proof.
  induction 1 as [h|n h Hk|n h Hk _ IH1 _ IH2]; intros h' Hle.
  - constructor.
  - destruct h' as [|h']; [lia|]. by constructor.
  - destruct h' as [|h']; [lia|].
    apply walk_ends_group; [done|apply IH1; lia|apply IH2; lia].
Qed.

Lemma addAllNodes_returns g h n :
  walk_ends g (Some n) h ->
  forall t parentEl,
  exists t', addAllNodes groupExpanded h g t parentEl n = Returns t'.
Proof.
  revert n. induction h as [|h IH]; intros n Hw t parentEl;
    [inversion Hw|].
  simpl. unfold createHTMLElement, isLinkedListNode.
  inversion Hw as [|? ? Hk|? ? Hk Hfirst Hnext]; subst; rewrite Hk; simpl;
    [eauto|].
  match goal with
  | |- context [set_childLists ?f ?t0] => set (t2 := set_childLists f t0)
  end.
  assert (exists t3,
             match firstChild g n with
             | Some c => addAllNodes groupExpanded h g t2 (nextElem t) c
             | None => Returns t2
             end = Returns t3) as [t3 ->].
  { destruct (firstChild g n) as [c|]; [by apply IH|eauto]. }
  simpl. destruct (nextSibling g n) as [s|]; [by apply IH|eauto].
Qed.

(** X12. On a graph where the walk of the constructor is finite and
    meets only containers and leaves, the constructor returns, with
    enough fuel, and gives the root an entry. *)
Theorem Tree_new_returns g h fuel :
  walk_ends g (Some (rootNode g)) h ->
  h <= fuel ->
  exists t,
    Tree_new groupExpanded fuel g = Returns t /\
    tree_inv t /\
    is_Some (nodeMap t !! rootNode g).
Proof.
  intros Hw Hle. apply walk_ends_mono with (h' := fuel) in Hw; [|done].
  destruct (addAllNodes_returns g fuel _ Hw Tree_fields treeElem)
    as [t Hrun].
  exists t. split; [done|]. split; [by eapply Tree_new_inv|].
  apply (addAllNodes_entries g fuel _ _ _ _ Hrun). right.
  apply walk_reaches_self.
Qed.

(** ** The view that the constructor builds *)

Lemma children_bounded t q x :
  elems_bounded t -> x ∈ children (childLists t) q -> x < nextElem t.
Proof.
  intros Hb Hx. unfold children in Hx.
  destruct (childLists t !! q) as [l|] eqn:Hq; simpl in Hx.
  - specialize (Hb q l Hq). simpl in Hb.
    by eapply (proj1 (Forall_forall _ _) Hb).
  - by apply elem_of_nil in Hx.
Qed.

Lemma entries_agree t t' l :
  (forall x, x ∈ l -> nodeMap t' !! x = nodeMap t !! x) ->
  entries t' l = entries t l.
Proof.
  intros H. unfold entries. apply list_fmap_ext. intros i x Hx.
  apply H. by eapply list_elem_of_lookup_2.
Qed.

Lemma walk_step g t p n :
  tree_inv t -> elems_bounded t -> p < nextElem t ->
  kind g n <> OtherNode ->
  exists t1,
    createHTMLElement groupExpanded g t n = Some (nextElem t, t1) /\
    let t2 := set_childLists (appendChild p (nextElem t))
                (set_nodeMap <[n := nextElem t]> t1) in
    tree_inv t2 /\ elems_bounded t2 /\ nextElem t2 = S (nextElem t) /\
    nodeMap t2 = <[n := nextElem t]> (nodeMap t) /\
    forall q,
      children (childLists t2) q =
      if decide (p = q) then children (childLists t) p ++ [nextElem t]
      else children (childLists t) q.
Proof.
  intros [Hent Hkeys] Hb Hp Hk.
  destruct (createHTMLElement groupExpanded g t n) as [[e t1]|] eqn:Hc;
    [|by apply createHTMLElement_None in Hc].
  apply createHTMLElement_Some in Hc as (-> & _ & i & Hi & _ & ->).
  eexists. split; [done|]. simpl.
  assert (Hfresh : forall q, nextElem t ∉ children (childLists t) q).
  { intros q Hq. apply (children_bounded _ _ _ Hb) in Hq. lia. }
  split; [|split; [|split; [done|split; [done|]]]].
  - split; simpl.
    + intros m e Hm. simpl. apply lookup_insert_Some in Hm as [[<- <-]|[Hne Hm]].
      * split; [lia|]. by rewrite lookup_insert_eq, <- Hi.
      * destruct (Hent m e Hm) as [Hlt Hit]. simpl in *.
        split; [lia|]. rewrite lookup_insert_ne by lia. done.
    + unfold appendChild. intros q l Hq. simpl.
      apply lookup_insert_Some in Hq as [[<- _]|[_ Hq]]; [lia|].
      unfold detach in Hq. apply lookup_fmap_Some in Hq as (l' & _ & Hq).
      specialize (Hkeys q l' Hq). simpl in Hkeys. lia.
  - intros q l Hq. simpl in *. unfold appendChild in Hq.
    apply lookup_insert_Some in Hq as [[<- <-]|[_ Hq]].
    + apply Forall_app. split.
      * apply Forall_forall. intros x Hx. rewrite children_detach in Hx.
        apply elem_of_without in Hx as [Hx _].
        apply (children_bounded _ _ _ Hb) in Hx. lia.
      * apply Forall_singleton. lia.
    + unfold detach in Hq. apply lookup_fmap_Some in Hq as (l' & <- & Hq).
      specialize (Hb q l' Hq). simpl in Hb.
      apply Forall_forall. intros x Hx.
      apply elem_of_without in Hx as [Hx _].
      pose proof (proj1 (Forall_forall _ _) Hb x Hx). simpl in *. lia.
  - intros q. unfold appendChild. rewrite children_insert.
    rewrite !children_detach, !without_not_elem by apply Hfresh.
    done.
Qed.


Lemma addAllNodes_S fuel g t p n :
  addAllNodes groupExpanded (S fuel) g t p n =
  match createHTMLElement groupExpanded g t n with
  | None => Throws "unknown node" t
  | Some (element, t1) =>
      let t2 :=
        set_childLists (appendChild p element)
          (set_nodeMap <[n := element]> t1) in
      if isLinkedListNode g n then
        and_then
          match firstChild g n with
          | Some c => addAllNodes groupExpanded fuel g t2 element c
          | None => Returns t2
          end
          (fun t3 =>
             match nextSibling g n with
             | Some s => addAllNodes groupExpanded fuel g t3 p s
             | None => Returns t3
             end)
      else Returns t2
  end.
Proof. done. Qed.

Lemma addAllNodes_shows g cur l :
  walk_from g cur l ->
  forall fuel t p,
    length l <= fuel -> tree_inv t -> elems_bounded t -> p < nextElem t ->
    NoDup l -> (forall m, m ∈ l -> nodeMap t !! m = None) ->
    exists t',
      match cur with
      | Some c => addAllNodes groupExpanded fuel g t p c
      | None => Returns t
      end = Returns t' /\
      tree_inv t' /\ elems_bounded t' /\ nextElem t <= nextElem t' /\
      (forall m, m ∉ l -> nodeMap t' !! m = nodeMap t !! m) /\
      (forall m, m ∈ l ->
         exists e, nodeMap t' !! m = Some e /\ nextElem t <= e) /\
      (forall q, q < nextElem t -> q <> p ->
         children (childLists t') q = children (childLists t) q) /\
      (exists sib els,
         sibling_walk g cur sib /\ (forall x, x ∈ sib -> x ∈ l) /\
         length sib <= length l /\
         children (childLists t') p = children (childLists t) p ++ els /\
         Some <$> els = entries t' sib) /\
      (forall m e, m ∈ l -> nodeMap t' !! m = Some e ->
         exists kids,
           shown_children g m kids /\ (forall x, x ∈ kids -> x ∈ l) /\
           length kids <= length l /\
           Some <$> children (childLists t') e = entries t' kids).
Proof.
  induction 1 as [|n Hk|n l1 l2 Hk H1 IH1 H2 IH2];
    intros fuel t p Hfuel Hinv Hb Hp Hnd Hnew.
  - exists t. split; [done|]. split; [done|]. split; [done|].
    split; [lia|]. split; [done|].
    split; [intros m Hm; by apply elem_of_nil in Hm|].
    split; [done|]. split.
    + exists [], []. split; [constructor|]. split; [done|].
      split; [done|]. by rewrite app_nil_r.
    + intros m e Hm. by apply elem_of_nil in Hm.
  - destruct fuel as [|fuel]; [simpl in Hfuel; lia|].
    destruct (walk_step g t p n Hinv Hb Hp) as
      (t1 & Hc & Hinv2); [congruence|].
    rewrite addAllNodes_S, Hc. cbv zeta. unfold isLinkedListNode at 1.
    rewrite bool_decide_eq_false_2 by congruence.
    remember (set_childLists (appendChild p (nextElem t))
                (set_nodeMap <[n := nextElem t]> t1)) as t2 eqn:Ht2.
    cbv zeta in Hinv2. clear Ht2 Hc t1.
    destruct Hinv2 as (Hinv2 & Hb2 & Hnext & Hmap & Hch).
    eexists. split; [done|]. split; [done|]. split; [done|].
    split; [rewrite Hnext; lia|]. split.
    { intros m Hm. rewrite Hmap. apply lookup_insert_ne.
      intros ->. apply Hm, list_elem_of_here. }
    split.
    { intros m Hm. apply list_elem_of_singleton in Hm as ->.
      exists (nextElem t). rewrite Hmap, lookup_insert_eq. done. }
    split.
    { intros q _ Hq. rewrite Hch. by rewrite decide_False. }
    split.
    { exists [n], [nextElem t]. split.
      - constructor. unfold isLinkedListNode.
        apply bool_decide_eq_false_2. congruence.
      - split; [done|]. split; [done|]. split.
        + rewrite Hch. by rewrite decide_True.
        + unfold entries. simpl. by rewrite Hmap, lookup_insert_eq. }
    intros m e Hm Hme. apply list_elem_of_singleton in Hm as ->.
    rewrite Hmap, lookup_insert_eq in Hme. injection Hme as <-.
    exists []. split.
    { unfold shown_children, isLinkedListNode.
      rewrite bool_decide_eq_false_2 by congruence. done. }
    split; [by intros x ?%elem_of_nil|]. split; [simpl; lia|].
    rewrite Hch, decide_False by lia.
    rewrite children_None; [done|].
    destruct (childLists t !! nextElem t) as [x|] eqn:Hx; [|done].
    destruct Hinv as [_ Hkeys]. specialize (Hkeys _ _ Hx). simpl in Hkeys. lia.
  - destruct fuel as [|fuel]; [simpl in Hfuel; lia|].
    simpl in Hfuel. rewrite length_app in Hfuel.
    destruct (walk_step g t p n Hinv Hb Hp) as
      (t1 & Hc & Hinv2); [congruence|].
    rewrite addAllNodes_S, Hc. cbv zeta. unfold isLinkedListNode at 1.
    rewrite bool_decide_eq_true_2 by done.
    remember (set_childLists (appendChild p (nextElem t))
                (set_nodeMap <[n := nextElem t]> t1)) as t2 eqn:Ht2.
    cbv zeta in Hinv2. clear Ht2 Hc t1.
    destruct Hinv2 as (Hinv2 & Hb2 & Hnext & Hmap & Hch).
    apply NoDup_cons in Hnd as [Hn Hnd].
    apply NoDup_app in Hnd as (Hnd1 & Hdisj & Hnd2).
    apply not_elem_of_app in Hn as [Hn1 Hn2].
    assert (Hfresh : children (childLists t) (nextElem t) = []).
    { apply children_None.
      destruct (childLists t !! nextElem t) as [x|] eqn:Hx; [|done].
      destruct Hinv as [_ Hkeys]. specialize (Hkeys _ _ Hx).
      simpl in Hkeys. lia. }
    destruct (IH1 fuel t2 (nextElem t)) as
      (t3 & Hrun1 & Hinv3 & Hb3 & Hle3 & Hout3 & Hin3 & Hold3 & Hsib3 & Hkid3);
      [lia|done|done|lia|done| |].
    { intros m Hm. rewrite Hmap, lookup_insert_ne.
      - apply Hnew. apply list_elem_of_further, elem_of_app. by left.
      - by intros ->. }
    destruct (IH2 fuel t3 p) as
      (t4 & Hrun2 & Hinv4 & Hb4 & Hle4 & Hout4 & Hin4 & Hold4 & Hsib4 & Hkid4);
      [lia|done|done|lia|done| |].
    { intros m Hm. rewrite Hout3, Hmap, lookup_insert_ne.
      - apply Hnew. apply list_elem_of_further, elem_of_app. by right.
      - by intros ->.
      - intros Hm1. by apply (Hdisj m). }
    exists t4. split.
    { rewrite Hrun1. simpl. exact Hrun2. }
    assert (Hn4 : nodeMap t4 !! n = Some (nextElem t)).
    { rewrite Hout4, Hout3, Hmap by done. apply lookup_insert_eq. }
    split; [done|]. split; [done|]. split; [lia|]. split.
    { intros m Hm. apply not_elem_of_cons in Hm as [Hne Hm].
      apply not_elem_of_app in Hm as [Hm1 Hm2].
      rewrite Hout4, Hout3, Hmap by done. by apply lookup_insert_ne. }
    split.
    { intros m Hm. apply elem_of_cons in Hm as [->|Hm]; [by eauto|].
      apply elem_of_app in Hm as [Hm|Hm].
      - destruct (Hin3 m Hm) as (e & He & Hge). exists e. split; [|lia].
        rewrite Hout4; [done|]. intros Hm2. by apply (Hdisj m).
      - destruct (Hin4 m Hm) as (e & He & Hge). exists e. split; [done|lia]. }
    split.
    { intros q Hq Hqp. rewrite Hold4, Hold3, Hch by lia.
      by rewrite decide_False. }
    split.
    { destruct Hsib4 as (sib & els & Hw & Hsub & Hlen & Hcp & Hels).
      exists (n :: sib), (nextElem t :: els). split.
      - constructor; [|done]. unfold isLinkedListNode.
        by apply bool_decide_eq_true_2.
      - split.
        + intros x Hx. apply elem_of_cons in Hx as [->|Hx].
          * apply list_elem_of_here.
          * apply list_elem_of_further, elem_of_app. right. by apply Hsub.
        + split; [simpl; rewrite length_app; lia|]. split.
          * rewrite Hcp, Hold3, Hch by lia. rewrite decide_True by done.
            by rewrite <- app_assoc.
          * unfold entries in *. rewrite !fmap_cons, Hn4. by f_equal. }
    intros m e Hm Hme. apply elem_of_cons in Hm as [->|Hm].
    { rewrite Hn4 in Hme. injection Hme as <-.
      destruct Hsib3 as (sib & els & Hw & Hsub & Hlen & Hcp & Hels).
      exists sib. split.
      - unfold shown_children, isLinkedListNode.
        by rewrite bool_decide_eq_true_2.
      - split; [|split; [simpl; rewrite length_app; lia|]].
        + intros x Hx. apply list_elem_of_further, elem_of_app.
          left. by apply Hsub.
        + rewrite Hold4 by lia. rewrite Hcp, Hch, decide_False by lia.
          rewrite Hfresh. simpl. rewrite Hels. symmetry.
          apply entries_agree. intros x Hx. apply Hout4.
          intros Hx2. apply (Hdisj x); [by apply Hsub|done]. }
    apply elem_of_app in Hm as [Hm|Hm].
    + assert (Hme3 : nodeMap t3 !! m = Some e).
      { rewrite <- Hout4; [done|]. intros Hm2. by apply (Hdisj m). }
      destruct (Hkid3 m e Hm Hme3) as (kids & Hshown & Hsub & Hlen & Hels).
      destruct (Hin3 m Hm) as (e' & He' & Hge).
      assert (e' = e) as -> by congruence.
      destruct Hinv3 as [Hent3 _]. destruct (Hent3 m e Hme3) as [Hlt _].
      simpl in Hlt.
      exists kids. split; [done|].
      split; [|split; [simpl; rewrite length_app; lia|]].
      * intros x Hx. apply list_elem_of_further, elem_of_app.
        left. by apply Hsub.
      * rewrite Hold4 by lia. rewrite Hels. symmetry.
        apply entries_agree. intros x Hx. apply Hout4.
        intros Hx2. apply (Hdisj x); [by apply Hsub|done].
    + destruct (Hkid4 m e Hm Hme) as (kids & Hshown & Hsub & Hlen & Hels).
      exists kids. split; [done|].
      split; [|split; [simpl; rewrite length_app; lia|done]].
      intros x Hx. apply list_elem_of_further, elem_of_app.
      right. by apply Hsub.
Qed.

Lemma Tree_fields_inv : tree_inv Tree_fields /\ elems_bounded Tree_fields.
Proof.
  split; [split|]; apply map_Forall_empty.
Qed.

Lemma entries_read_back t :
  tree_inv t ->
  forall kids els,
    Some <$> els = entries t kids ->
    omap (fun c => item_node <$> items t !! c) els = kids.
Proof.
  intros [Hent _]. unfold entries.
  induction kids as [|k kids IH]; intros [|c els] Heq; try done.
  rewrite !fmap_cons in Heq. injection Heq as Hk Heq.
  symmetry in Hk. destruct (Hent k c Hk) as [_ Hit]. simpl in Hit.
  simpl. rewrite Hit. simpl. f_equal. by apply IH.
Qed.

Lemma sibling_walk_full g cur sib :
  sibling_walk g cur sib ->
  (forall x, x ∈ sib -> isLinkedListNode g x = false ->
             nextSibling g x = None) ->
  forall fuel, length sib <= fuel -> siblings_from fuel g cur = sib.
Proof.
  induction 1 as [|c Hc|c l Hc Hw IH]; intros Hlast fuel Hfuel.
  - by destruct fuel.
  - destruct fuel as [|fuel]; [simpl in Hfuel; lia|]. simpl.
    rewrite (Hlast c) by (done || apply list_elem_of_here).
    by destruct fuel.
  - destruct fuel as [|fuel]; [simpl in Hfuel; lia|]. simpl. f_equal.
    apply IH; [|simpl in Hfuel; lia].
    intros x Hx. apply Hlast. by apply list_elem_of_further.
Qed.

(** X21. On a graph where the walk of the constructor is finite, meets
    only containers and leaves and meets no node twice, the constructor
    returns a view in which exactly the visited nodes have an element.
    The children of the element of a node are the elements of the
    siblings that the walk reaches from the node's first child, in that
    order, and the panel holds the root in the same way.  The invariant
    holds and the view shows the child lists read back from it. *)
Theorem Tree_new_shows_walk fuel g l :
  walk_from g (Some (rootNode g)) l -> NoDup l -> length l <= fuel ->
  exists t,
    Tree_new groupExpanded fuel g = Returns t /\
    tree_inv t /\ view_matches t (view_lists t) /\
    (forall n, is_Some (nodeMap t !! n) <-> n ∈ l) /\
    (forall n, n ∈ l -> shown_children g n (children (view_lists t) n)) /\
    exists top,
      sibling_walk g (Some (rootNode g)) top /\
      Some <$> children (childLists t) treeElem = entries t top.
Proof.
  intros Hw Hnd Hfuel.
  destruct Tree_fields_inv as [Hinv0 Hb0].
  destruct (addAllNodes_shows g _ l Hw fuel Tree_fields treeElem)
    as (t & Hrun & Hinv & _ & _ & Hout & Hin & _ & Htop & Hkid);
    [done|done|done|simpl; unfold treeElem; lia|done|done|].
  exists t. split; [exact Hrun|]. split; [done|].
  assert (Hdom : forall n, is_Some (nodeMap t !! n) <-> n ∈ l).
  { intros n. split.
    - intros [e He]. destruct (decide (n ∈ l)) as [|Hn]; [done|].
      rewrite (Hout n Hn) in He. done.
    - intros Hn. destruct (Hin n Hn) as (e & -> & _). by eexists. }
  assert (Hread : forall n e kids,
             nodeMap t !! n = Some e ->
             Some <$> children (childLists t) e = entries t kids ->
             children (view_lists t) n = kids).
  { intros n e kids Hn Hels. unfold children at 1, view_lists.
    rewrite lookup_fmap, Hn. simpl. by apply entries_read_back. }
  split; [split|].
  - intros n e Hn. simpl.
    destruct (Hkid n e) as (kids & _ & _ & _ & Hels);
      [by apply Hdom; eexists|done|].
    by rewrite (Hread n e kids).
  - intros n ks Hn Hne. unfold view_lists in Hn.
    apply lookup_fmap_Some in Hn as (e & _ & Hn). by eexists.
  - split; [done|]. split.
    + intros n Hn. destruct (Hin n Hn) as (e & He & _).
      destruct (Hkid n e Hn He) as (kids & Hshown & _ & _ & Hels).
      by rewrite (Hread n e kids).
    + destruct Htop as (top & els & Hwalk & _ & _ & Hcp & Hels).
      exists top. split; [done|]. by rewrite Hcp.
Qed.

(** X22. If moreover every leaf that the walk meets is a last sibling,
    the constructor shows the graph: the children of the element of each
    node are the elements of the node's children in sibling order, and
    the panel holds the root and the siblings after it. *)
Theorem Tree_new_matches_graph fuel g l :
  walk_from g (Some (rootNode g)) l -> NoDup l -> length l <= fuel ->
  (forall n, n ∈ l -> kind g n = ModelNode -> nextSibling g n = None) ->
  exists t,
    Tree_new groupExpanded fuel g = Returns t /\
    (forall n e, nodeMap t !! n = Some e ->
       Some <$> children (childLists t) e = entries t (childrenOf fuel g n)) /\
    Some <$> children (childLists t) treeElem =
    entries t (siblings_from fuel g (Some (rootNode g))).
Proof.
  intros Hw Hnd Hfuel Hlast.
  destruct Tree_fields_inv as [Hinv0 Hb0].
  destruct (addAllNodes_shows g _ l Hw fuel Tree_fields treeElem)
    as (t & Hrun & Hinv & _ & _ & Hout & Hin & _ & Htop & Hkid);
    [done|done|done|simpl; unfold treeElem; lia|done|done|].
  assert (Hkinds : forall x, x ∈ l -> kind g x <> OtherNode).
  { clear -Hw. induction Hw as [|n Hk|n l1 l2 Hk _ IH1 _ IH2]; intros x Hx.
    - by apply elem_of_nil in Hx.
    - apply list_elem_of_singleton in Hx as ->. congruence.
    - apply elem_of_cons in Hx as [->|Hx]; [congruence|].
      apply elem_of_app in Hx as [Hx|Hx]; auto. }
  assert (Hfull : forall cur sib,
             sibling_walk g cur sib -> (forall x, x ∈ sib -> x ∈ l) ->
             length sib <= length l -> siblings_from fuel g cur = sib).
  { intros cur sib Hs Hsub Hlen. apply sibling_walk_full; [done| |lia].
    intros x Hx Hleaf. apply Hlast; [by apply Hsub|].
    unfold isLinkedListNode in Hleaf. apply bool_decide_eq_false_1 in Hleaf.
    specialize (Hkinds x (Hsub x Hx)). by destruct (kind g x). }
  exists t. split; [exact Hrun|]. split.
  - intros n e Hn.
    assert (Hnl : n ∈ l).
    { destruct (decide (n ∈ l)) as [|Hnl]; [done|].
      rewrite (Hout n Hnl) in Hn. done. }
    destruct (Hkid n e Hnl Hn) as (kids & Hshown & Hsub & Hlen & Hels).
    rewrite Hels. f_equal. unfold childrenOf, shown_children in *.
    destruct (isLinkedListNode g n); [|done].
    symmetry. by apply Hfull.
  - destruct Htop as (top & els & Hwalk & Hsub & Hlen & Hcp & Hels).
    rewrite Hcp.
    change (children (childLists Tree_fields) treeElem) with (@nil nat).
    rewrite app_nil_l, Hels. f_equal. symmetry. by apply Hfull.
Qed.

End MoreReconcile.

(** * Properties of the kernel helpers *)

Module OccHelpsFacts.
Import OccHelps.

(** X13. The two tables between the shape types of the kernel and
    [ShapeType] are inverse of each other: the kernel type of a shape is
    found back from [getShapeType], and a shape whose kernel type comes
    from [getShapeEnum] has the shape type one started from. *)
Theorem getShapeEnum_getShapeType shape t h c n :
  getShapeEnum (getShapeType shape) = ShapeType_ shape /\
  getShapeType {| ShapeType_ := getShapeEnum t; HashCode := h;
                  downcast := c; tshape := n |} = t.
Proof.
  split.
  - by destruct shape as [[] h' c' n'].
  - by destruct t.
Qed.

Lemma getActualShape_fields shape :
  ShapeType_ (getActualShape shape) = ShapeType_ shape /\
  HashCode (getActualShape shape) = HashCode shape /\
  tshape (getActualShape shape) = tshape shape.
Proof. by destruct shape as [[] h c n]. Qed.

(** X14. [getShape] wraps a shape in the class that goes with
    [getShapeType] of the shape, and the handle it wraps is the one that
    [getActualShape] returns: the same shape, downcast to its own kernel
    type, and left as it is when that type is the general one. *)
Theorem getShape_getActualShape shape :
  getShape shape = wrapper (getShapeType shape) (getActualShape shape) /\
  ShapeType_ (getActualShape shape) = ShapeType_ shape /\
  tshape (getActualShape shape) = tshape shape /\
  downcast (getActualShape shape) =
    if decide (ShapeType_ shape = TopAbs_SHAPE) then downcast shape
    else Some (ShapeType_ shape).
Proof.
  by destruct shape as [[] h c n].
Qed.

(** X15. [getCurveType] names a curve type only when the curve is an
    instance of the class of that type, and answers [OtherCurve] only
    when the curve is an instance of none of the eight classes. *)
Theorem getCurveType_sound curve :
  match className (getCurveType curve) with
  | Some name => curve name = true
  | None => Forall (fun name => curve name = false) classNames
  end.
Proof.
  unfold getCurveType, classNames.
  destruct (curve "Geom_Line") eqn:H1; [done|].
  destruct (curve "Geom_Circle") eqn:H2; [done|].
  destruct (curve "Geom_Ellipse") eqn:H3; [done|].
  destruct (curve "Geom_Hyperbola") eqn:H4; [done|].
  destruct (curve "Geom_Parabola") eqn:H5; [done|].
  destruct (curve "Geom_BezierCurve") eqn:H6; [done|].
  destruct (curve "Geom_BSplineCurve") eqn:H7; [done|].
  destruct (curve "Geom_OffsetCurve") eqn:H8; [done|].
  simpl. repeat constructor; done.
Qed.

Lemma last_cons_cons {A} (x y : A) l : last (x :: y :: l) = last (y :: l).
Proof. done. Qed.

(** X16. [findAncestors] returns as many shapes as the kernel lists
    ancestors, and each of them is the actual shape of the last ancestor
    of the list: the loop reads the last element while it removes the
    first.  For no ancestor it returns nothing. *)
Theorem findAncestors_repeats_last item :
  findAncestors item =
    match last item with
    | Some z => replicate (length item) (getActualShape z)
    | None => []
    end.
Proof.
  induction item as [|x item IH]; [done|].
  cbn [findAncestors length replicate].
  destruct item as [|y item]; [done|].
  rewrite last_cons_cons in *.
  destruct (last (y :: item)) as [z|] eqn:Hlast; [|done].
  simpl. f_equal. exact IH.
Qed.

Lemma hashCode_getActualShape shape :
  hashCode (getActualShape shape) = hashCode shape.
Proof. apply getActualShape_fields. Qed.

(** With [unique], from a map of hashes: the hashes of the yielded shapes
    are all different, they are the hashes of the explored shapes that
    the map does not hold, and the yielded shapes are actual shapes of
    explored ones, in their order. *)
Lemma findSubShapes_from_unique explored :
  forall hashes,
    NoDup (hashCode <$> findSubShapes_from hashes true explored) /\
    (forall h,
        h ∈ hashCode <$> findSubShapes_from hashes true explored <->
        h ∈ hashCode <$> explored /\ hashes !! h = None) /\
    exists firsts,
      firsts `sublist_of` explored /\
      findSubShapes_from hashes true explored = getActualShape <$> firsts.
Proof.
  induction explored as [|item rest IH]; intros hashes.
  - simpl. split; [constructor|]. split.
    + intros h. rewrite elem_of_nil. tauto.
    + exists []. done.
  - cbn [findSubShapes_from negb]. cbv zeta. rewrite fmap_cons.
    destruct (decide (is_Some (hashes !! hashCode item))) as [Hin|Hnot].
    + destruct (IH hashes) as (Hnd & Hmem & firsts & Hsub & Heq).
      split; [done|]. split.
      * intros h. rewrite Hmem, elem_of_cons. split; [tauto|].
        intros [[->|?] Hnone]; [|done].
        rewrite Hnone in Hin. by destruct Hin.
      * exists firsts. split; [by apply sublist_cons|done].
    + apply eq_None_not_Some in Hnot.
      destruct (IH (<[hashCode item := true]> hashes))
        as (Hnd & Hmem & firsts & Hsub & Heq).
      rewrite fmap_cons, hashCode_getActualShape. split; [|split].
      * constructor; [|done]. rewrite Hmem.
        intros [_ Hnone]. by rewrite lookup_insert_eq in Hnone.
      * intros h. rewrite !elem_of_cons, Hmem.
        destruct (decide (h = hashCode item)) as [->|Hne].
        { split; [auto|auto]. }
        rewrite lookup_insert_ne by done. tauto.
      * exists (item :: firsts). split; [by apply sublist_skip|].
        by rewrite fmap_cons, Heq.
Qed.

(** X17. With [unique], [findSubShapes] yields one shape for each hash
    code met by the explorer: no two yielded shapes have the same hash
    code, every hash code of an explored shape is the hash code of a
    yielded one, and the yielded shapes are actual shapes of explored
    ones, in the explorer's order, the first explored shape among them.
    Without [unique] the explored shapes are yielded as they are. *)
Theorem findSubShapes_unique explored :
  NoDup (hashCode <$> findSubShapes explored true) /\
  (forall h,
      h ∈ hashCode <$> findSubShapes explored true <->
      h ∈ hashCode <$> explored) /\
  (exists firsts,
      firsts `sublist_of` explored /\
      findSubShapes explored true = getActualShape <$> firsts) /\
  head (findSubShapes explored true) = getActualShape <$> head explored /\
  findSubShapes explored false = explored.
Proof.
  unfold findSubShapes.
  destruct (findSubShapes_from_unique explored ∅) as (Hnd & Hmem & Hsub).
  split; [done|]. split; [|split; [done|split]].
  - intros h. rewrite Hmem, lookup_empty. tauto.
  - destruct explored as [|item rest]; [done|].
    cbn [findSubShapes_from negb]. cbv zeta.
    rewrite lookup_empty. by rewrite decide_False by (by intros [? ?]).
  - clear Hnd Hmem Hsub.
    induction explored as [|item rest IH]; [done|].
    simpl. by rewrite IH.
Qed.

End OccHelpsFacts.

(** * Properties of the view of the scene *)

Module ThreeViewFacts.
Import ThreeView.

Lemma filter_ext_elem {A} (P Q : A -> Prop) `{!forall x, Decision (P x)}
    `{!forall x, Decision (Q x)} (l : list A) :
  (forall x, x ∈ l -> (P x <-> Q x)) -> filter P l = filter Q l.
Proof.
  induction l as [|x l IH]; intros Hpq; [done|].
  rewrite !filter_cons.
  assert (filter P l = filter Q l) as ->
    by (apply IH; intros y Hy; apply Hpq; by right).
  destruct (decide (P x)) as [Hp|Hp], (decide (Q x)) as [Hq|Hq];
    try done; exfalso; apply (Hpq x (list_elem_of_here x l)) in Hp || 
    apply (Hpq x (list_elem_of_here x l)) in Hq; done.
Qed.

Lemma setCursor_Default_filter classList :
  setCursor Default classList =
    filter (fun x => includes_Cursor x = false) classList.
Proof.
  unfold setCursor, classList_remove. apply filter_ext_elem.
  intros x Hx. rewrite list_elem_of_filter.
  destruct (includes_Cursor x); split; try done.
  - intros Hnot. exfalso. by apply Hnot.
  - by intros _ [? _].
Qed.

(** X18. [setCursor(Default)] keeps, in their order, the classes whose
    name does not contain "Cursor" and no other; it undoes
    [setCursor(Drawing)], and on a class list without cursor class the
    two calls in a row give the list back.  [setCursor(Drawing)] twice is
    as once. *)
Theorem setCursor_Default classList :
  setCursor Default classList =
    filter (fun x => includes_Cursor x = false) classList /\
  setCursor Default (setCursor Drawing classList) =
    setCursor Default classList /\
  (Forall (fun x => includes_Cursor x = false) classList ->
   setCursor Default (setCursor Drawing classList) = classList) /\
  setCursor Drawing (setCursor Drawing classList) =
    setCursor Drawing classList.
Proof.
  split; [apply setCursor_Default_filter|].
  assert (setCursor Default (setCursor Drawing classList) =
          setCursor Default classList) as Hundo.
  { rewrite !setCursor_Default_filter. unfold setCursor, classList_add.
    destruct (bool_decide _); [done|].
    rewrite filter_app. by rewrite app_nil_r. }
  split; [done|]. split.
  - intros Hnone. rewrite Hundo, setCursor_Default_filter. clear Hundo.
    induction Hnone as [|x l Hx _ IH]; [done|].
    rewrite filter_cons, decide_True by done. by rewrite IH.
  - unfold setCursor, classList_add.
    destruct (bool_decide ("drawingCursor"%string ∈ classList)) eqn:Hin.
    + by rewrite Hin.
    + rewrite bool_decide_eq_true_2; [done|].
      apply elem_of_app. right. by apply list_elem_of_singleton.
Qed.

(** X19. However many times [redraw] is asked for before a frame, the
    frame renders once and takes the request away: the frame after it
    renders nothing. *)
Theorem redraw_coalesced n s :
  rendered (animate (Nat.iter (S n) redraw s)) = S (rendered s) /\
  needRedraw (animate (Nat.iter (S n) redraw s)) = false /\
  animate (animate (Nat.iter (S n) redraw s)) =
    animate (Nat.iter (S n) redraw s).
Proof.
  assert (Nat.iter (S n) redraw s = redraw s) as ->.
  { induction n as [|n IH]; [done|]. simpl in *. by rewrite IH. }
  done.
Qed.

End ThreeViewFacts.

(** * Properties of the line body *)

Module LineBodyFacts.
Import LineBody.

Section Facts.
Context {XYZ Matrix4 Result : Type}.
Variable ofPoint : Matrix4 -> XYZ -> XYZ.
Variable line : XYZ -> XYZ -> Result.

Lemma setMatrix_initial (ms : list Matrix4) (b : LineBody XYZ) :
  initialStart XYZ (foldl (flip (setMatrix XYZ Matrix4 ofPoint)) b ms) =
    initialStart XYZ b /\
  initialEnd XYZ (foldl (flip (setMatrix XYZ Matrix4 ofPoint)) b ms) =
    initialEnd XYZ b.
Proof.
  revert b. induction ms as [|m ms IH]; intros b; [done|].
  simpl. destruct (IH (setMatrix XYZ Matrix4 ofPoint m b)) as [-> ->]. done.
Qed.

(** X20. [setMatrix] is not cumulative: whatever matrices were set on a
    line body before, after [setMatrix(m)] the line runs between the
    images under [m] of the two points given to the constructor, and
    that is the line that [generateShape] asks the factory for. *)
Theorem setMatrix_last_wins (ms : list Matrix4) (m : Matrix4)
    (start end_ : XYZ) :
  let b :=
    setMatrix XYZ Matrix4 ofPoint m
      (foldl (flip (setMatrix XYZ Matrix4 ofPoint)) (from XYZ start end_)
         ms) in
  _start XYZ b = ofPoint m start /\
  _end XYZ b = ofPoint m end_ /\
  generateShape XYZ Result line b =
    line (ofPoint m start) (ofPoint m end_).
Proof.
  intros b. subst b. unfold generateShape. simpl.
  destruct (setMatrix_initial ms (from XYZ start end_)) as [-> ->]. done.
Qed.

End Facts.
End LineBodyFacts.

(** * The further properties on the small scene *)

Lemma handleSelectionChanged_selection_witness :
  match handleSelectionChanged 2 scene scene_selected [2; 4] [3] with
  | Some (t', calls) =>
      (forall n,
          n ∈ selectedNodes t' <->
          n ∈ [2; 4] \/ (n ∈ selectedNodes scene_selected /\ n ∉ [3])) /\
      (NoDup (selectedNodes scene_selected) -> NoDup (selectedNodes t')) /\
      lastClicked t' = None /\
      dragging t' = dragging scene_selected /\
      nodeMap t' = nodeMap scene_selected /\
      childLists t' = childLists scene_selected
  | None => False
  end.
Proof.
  destruct (handleSelectionChanged 2 scene scene_selected [2; 4] [3])
    as [[t' calls]|] eqn:Hrun.
  - exact (handleSelectionChanged_selection 2 scene scene_selected [2; 4]
             [3] t' calls Hrun).
  - vm_compute in Hrun. discriminate.
Defined.

Lemma onClick_anchor_witness :
  lastClicked
    (onClick ends_between clearing_select scene (scene_tree true)
       (plain_click 2)).1 = Some 2 /\
  head (onClick ends_between clearing_select scene (scene_tree true)
          (plain_click 2)).2 = Some StopPropagation /\
  last (onClick ends_between clearing_select scene (scene_tree true)
          (plain_click 2)).2 = Some (SetCurrentNode (Some 1)).
Proof.
  apply (onClick_anchor ends_between clearing_select scene (scene_tree true)
           (plain_click 2) 2). reflexivity.
Defined.

Lemma click_then_shift_click_witness :
  select_calls
    (onClick ends_between clearing_select scene
       (onClick ends_between clearing_select scene (scene_tree true)
          (plain_click 4)).1 (shift_click 2)).2 = [([4; 2], false)].
Proof.
  apply (click_then_shift_click ends_between clearing_select scene
           (scene_tree true) (plain_click 4) (shift_click 2) 4 2);
    reflexivity.
Defined.

Lemma shift_click_after_selection_change_witness :
  match handleSelectionChanged 2 scene scene_clicked [2] [] with
  | Some (t', calls) =>
      select_calls
        (onClick ends_between quiet_select scene t' (shift_click 4)).2 =
        [] /\
      lastClicked
        (onClick ends_between quiet_select scene t' (shift_click 4)).1 =
        Some 4
  | None => False
  end.
Proof.
  destruct (handleSelectionChanged 2 scene scene_clicked [2] [])
    as [[t' calls]|] eqn:Hrun.
  - apply (shift_click_after_selection_change ends_between quiet_select 2
             scene scene_clicked [2] [] t' calls (shift_click 4) 4 Hrun);
      reflexivity.
  - vm_compute in Hrun. discriminate.
Defined.

Lemma onDragStart_refuses_own_subtrees_witness :
  canDrop 2 scene
    (onDragStart scene scene_nested_selection (pointer_at 3)).1
    (pointer_at 2) = Some false.
Proof.
  apply (onDragStart_refuses_own_subtrees scene scene_nested_selection
           (pointer_at 3) (pointer_at 2) 2 1 2 2);
    [reflexivity|apply scene_chain_leaf|lia|left; compute_done|].
  right. by apply ancestor_parent.
Defined.

Lemma onDragStart_NoDup_witness :
  exists ds,
    dragging (onDragStart scene scene_nested_selection (pointer_at 3)).1 =
      Some ds /\
    NoDup ds /\
    forall x, x ∈ ds ->
              x ∈ selectedNodes scene_nested_selection \/
              getTreeItem (target (pointer_at 3)) = Some x.
Proof.
  apply (onDragStart_NoDup scene scene_nested_selection (pointer_at 3)).
  compute_done.
Defined.

Lemma onDrop_then_canDrop_witness :
  canDrop 2 scene
    (onDrop reparent scene (scene_dragging [2; 4]) (pointer_at 3)).1.1
    (pointer_at 2) = Some true.
Proof.
  apply (onDrop_then_canDrop reparent scene (scene_dragging [2; 4])
           (pointer_at 3) 3 scene (pointer_at 2) 2 2 2);
    [reflexivity|reflexivity|apply scene_chain_leaf|lia].
Defined.

Lemma onDrop_outside_keeps_drag_set_witness :
  transactions
    (onDrop reparent scene (scene_dragging [1]) stray_event).2 = [] /\
  (onDrop reparent scene (scene_dragging [1]) stray_event).1.2 = scene /\
  dragging (onDrop reparent scene (scene_dragging [1]) stray_event).1.1 =
    Some [1] /\
  canDrop 0 scene
    (onDrop reparent scene (scene_dragging [1]) stray_event).1.1
    (pointer_at 1) = Some false.
Proof.
  apply (onDrop_outside_keeps_drag_set reparent scene (scene_dragging [1])
           stray_event [1] 1 (pointer_at 1) 0);
    [reflexivity|reflexivity|compute_done|reflexivity].
Defined.

Lemma handleNodeLinkedChanged_keeps_entries_witness :
  match handleNodeLinkedChanged true scene (scene_tree true) scene_batch with
  | Returns t' =>
      nodeMap t' !! 2 = Some 3 /\
      items t' !! 3 = items (scene_tree true) !! 3
  | _ => False
  end.
Proof.
  destruct (handleNodeLinkedChanged true scene (scene_tree true) scene_batch)
    as [t'| |] eqn:Hrun.
  - apply (handleNodeLinkedChanged_keeps_entries true scene (scene_tree true)
             scene_batch t' 2 3); [compute_done|exact Hrun|reflexivity].
  - vm_compute in Hrun. discriminate.
  - vm_compute in Hrun. discriminate.
Defined.

Lemma ensureHasHTML_once_witness :
  match ensureHasHTML true scene (scene_tree true) scene_batch with
  | Returns t1 =>
      size (nodeMap t1) + nextElem (scene_tree true) =
        size (nodeMap (scene_tree true)) + nextElem t1 /\
      (forall n,
          is_Some (nodeMap t1 !! n) <->
          is_Some (nodeMap (scene_tree true) !! n) \/
          n ∈ node <$> scene_batch) /\
      ensureHasHTML true scene t1 scene_batch = Returns t1
  | _ => False
  end.
Proof.
  destruct (ensureHasHTML true scene (scene_tree true) scene_batch)
    as [t1| |] eqn:Hrun.
  - exact (ensureHasHTML_once true scene (scene_tree true) scene_batch t1
             Hrun).
  - vm_compute in Hrun. discriminate.
  - vm_compute in Hrun. discriminate.
Defined.

Lemma Tree_new_entries_witness :
  match Tree_new true 8 two_leaves with
  | Returns t =>
      is_Some (nodeMap t !! 2) <-> walk_reaches two_leaves (rootNode two_leaves) 2
  | _ => False
  end.
Proof.
  destruct (Tree_new true 8 two_leaves) as [t| |] eqn:Hrun.
  - exact (Tree_new_entries true two_leaves 8 t 2 Hrun).
  - vm_compute in Hrun. discriminate.
  - vm_compute in Hrun. discriminate.
Defined.

Lemma scene_walk_ends : walk_ends scene (Some (rootNode scene)) 4.
Proof.
  repeat first
    [ apply walk_ends_none
    | apply walk_ends_leaf; reflexivity
    | apply walk_ends_group; [reflexivity|cbn|cbn] ].
Defined.

Lemma Tree_new_returns_witness :
  exists t,
    Tree_new true 8 scene = Returns t /\
    tree_inv t /\
    is_Some (nodeMap t !! rootNode scene).
Proof.
  apply (Tree_new_returns true scene 4 8); [apply scene_walk_ends|lia].
Defined.

Lemma scene_walk_from : walk_from scene (Some 0) [0; 1; 2; 3; 4].
Proof.
  apply (walk_from_group scene 0 [1; 2; 3; 4] []); [done| |constructor].
  apply (walk_from_group scene 1 [2] [3; 4]); [done|by constructor|].
  apply (walk_from_group scene 3 [] [4]); [done|constructor|by constructor].
Defined.

Lemma Tree_new_shows_walk_witness :
  exists t,
    Tree_new true 8 scene = Returns t /\
    tree_inv t /\ view_matches t (view_lists t) /\
    (forall n, is_Some (nodeMap t !! n) <-> n ∈ [0; 1; 2; 3; 4]) /\
    (forall n, n ∈ [0; 1; 2; 3; 4] ->
               shown_children scene n (children (view_lists t) n)) /\
    exists top,
      sibling_walk scene (Some (rootNode scene)) top /\
      Some <$> children (childLists t) treeElem = entries t top.
Proof.
  apply (Tree_new_shows_walk true 8 scene [0; 1; 2; 3; 4]);
    [apply scene_walk_from|compute_done|simpl; lia].
Defined.

Lemma Tree_new_matches_graph_witness :
  exists t,
    Tree_new true 8 scene = Returns t /\
    (forall n e, nodeMap t !! n = Some e ->
       Some <$> children (childLists t) e =
       entries t (childrenOf 8 scene n)) /\
    Some <$> children (childLists t) treeElem =
    entries t (siblings_from 8 scene (Some (rootNode scene))).
Proof.
  apply (Tree_new_matches_graph true 8 scene [0; 1; 2; 3; 4]);
    [apply scene_walk_from|compute_done|simpl; lia|].
  apply (proj1 (Forall_forall
                  (fun n => kind scene n = ModelNode ->
                            nextSibling scene n = None) [0; 1; 2; 3; 4])).
  repeat (constructor; [done|]). constructor.
Defined.

Lemma setCursor_Default_witness :
  ThreeView.setCursor ThreeView.Default
    (ThreeView.setCursor ThreeView.Drawing plain_classes) = plain_classes.
Proof.
  apply (ThreeViewFacts.setCursor_Default plain_classes). compute_done.
Defined.

(** What [includes("Cursor")] answers on some class names. *)
Example includes_Cursor_samples :
  ThreeView.includes_Cursor "drawingCursor" = true /\
  ThreeView.includes_Cursor "Cursor" = true /\
  ThreeView.includes_Cursor "cursor" = false /\
  ThreeView.includes_Cursor "panel" = false /\
  ThreeView.includes_Cursor "" = false.
Proof. repeat split; compute_done. Qed.
